(** * devil: the udev device observer ([src/devil/DeviceObserver.cpp])

    A shallow embedding of [DeviceObserver]: the property matcher
    ([invokeIfMatch]), the identity resolver ([readId]), the classification of
    live events ([handleDeviceEvent]) and the self re-arming read loop
    ([receiveEvent], [stop]).

    Conventions.
    - A [std::string] is a [string]; a possibly-NULL [const char *] handed out
      by libudev is an [option string].
    - [size_t] is an [N] below [2^64]; [npos] is the largest such value and
      additions wrap.
    - Calls into libudev, the log sink and the user callbacks are recorded, in
      program order, in a trace of [event]s.
    - A computation ends by returning, by throwing, or in undefined
      behaviour. *)

From Stdlib Require Import NArith Ascii String.
From stdpp Require Import base option list strings gmap.

Local Open Scope string_scope.

(** ** [std::string] operations used by the observer *)

Module StdString.

Definition size_max : N := 2 ^ 64.

(** [std::string::npos], i.e. [size_t(-1)]. *)
Definition npos : N := size_max - 1.

(** Arithmetic on [size_t] is modulo [2^64]. *)
Definition wrap (n : N) : N := (n mod size_max)%N.

(** [s.size()]. *)
Definition size (s : string) : N := N.of_nat (String.length s).

(** Membership of a character in a character set given as a string. *)
Fixpoint mem (c : ascii) (set : string) : bool :=
  match set with
  | EmptyString => false
  | String d set' => if Ascii.eqb c d then true else mem c set'
  end.

(** [true] when no character of [s] belongs to [set]. *)
Fixpoint none_of (set s : string) : bool :=
  match s with
  | EmptyString => true
  | String c s' => negb (mem c set) && none_of set s'
  end.

(** Left-to-right scan keeping the index of the most recent character of
    [p] that belongs to [set]; [i] is the index of the head of [p]. *)
Fixpoint find_last_of_from (set p : string) (i last : N) : N :=
  match p with
  | EmptyString => last
  | String c p' =>
      find_last_of_from set p' (N.succ i) (if mem c set then i else last)
  end.

(** [p.find_last_of(set)]: the index of the last character of [p] that is
    equal to any character of [set], or [npos] when there is none. *)
Definition find_last_of (p set : string) : N :=
  find_last_of_from set p 0%N npos.

(** The characters of [s] from position [n] on. *)
Fixpoint skip (n : nat) (s : string) : string :=
  match n, s with
  | O, _ => s
  | S _, EmptyString => EmptyString
  | S n', String _ s' => skip n' s'
  end.

(** [s.substr(pos)]: [None] stands for [std::out_of_range], thrown when
    [pos > s.size()]. *)
Definition substr (s : string) (pos : N) : option string :=
  if (size s <? pos)%N then None else Some (skip (N.to_nat pos) s).

(** [true] when [pat] is a prefix of [s]. *)
Fixpoint starts_with (pat s : string) : bool :=
  match pat, s with
  | EmptyString, _ => true
  | String _ _, EmptyString => false
  | String a pat', String b s' =>
      if Ascii.eqb a b then starts_with pat' s' else false
  end.

(** [p.rfind(pat)] for a non-empty [pat]: the index at which the last
    occurrence of the substring [pat] starts, [None] when [pat] does not
    occur.  The observer never calls it; it is the search the comment next
    to the path-tag branch describes and serves as the reference for
    [find_last_of]. *)
Fixpoint rfind_from (pat p : string) (i : nat) (last : option nat)
  : option nat :=
  match p with
  | EmptyString => last
  | String _ p' =>
      rfind_from pat p' (S i) (if starts_with pat p then Some i else last)
  end.

Definition rfind (p pat : string) : option nat := rfind_from pat p 0 None.

(** The part of [p] after the last occurrence of the substring [pat]. *)
Definition after_last (pat p : string) : option string :=
  match rfind p pat with
  | Some i => Some (skip (i + String.length pat) p)
  | None => None
  end.

End StdString.

(** ** Device records *)

(** What the observer reads of a [udev_device]: the action tag of a live event
    ([udev_device_get_action]), the named properties
    ([udev_device_get_property_value]) and the device node
    ([udev_device_get_devnode]).  Each accessor may yield NULL. *)
Record udev_device : Type := mk_device {
  dev_action : option string;
  dev_properties : gmap string string;
  dev_devnode : option string
}.

(** [DeviceCallback] is a [std::function]; an empty one is [None], a callable
    one is named by a handle so that invocations can be told apart. *)
Definition DeviceCallback : Type := option nat.

(** ** Observable effects *)

Inductive event : Type :=
| GetProperty (name : string)          (* udev_device_get_property_value *)
| GetDevnode                           (* udev_device_get_devnode *)
| GetAction                            (* udev_device_get_action *)
| ReceiveDevice                        (* udev_monitor_receive_device *)
| Log (message : string)               (* BOOST_LOG(log_) << ... *)
| Invoke (callback : nat) (devicePath identity : string)
| Arm.                                 (* udevStream_.async_read_some *)

Inductive exception : Type :=
| out_of_range.

Inductive outcome (A : Type) : Type :=
| Ret (a : A)
| Throw (e : exception)
| Undefined.
Arguments Ret {A} a.
Arguments Throw {A} e.
Arguments Undefined {A}.

(** A computation: the events it performed and how it ended. *)
Definition M (A : Type) : Type := (list event * outcome A)%type.

Definition ret {A} (a : A) : M A := ([], Ret a).

Definition bind {A B} (m : M A) (k : A -> M B) : M B :=
  match m with
  | (t, Ret a) => let '(t', r) := k a in ((t ++ t')%list, r)
  | (t, Throw e) => (t, Throw e)
  | (t, Undefined) => (t, Undefined)
  end.

Definition emit (e : event) : M unit := ([e], Ret tt).
Definition throw {A} (e : exception) : M A := ([], Throw e).
Definition undefined {A} : M A := ([], Undefined).

Declare Scope obs_scope.
Delimit Scope obs_scope with obs.
Notation "x <- m ;; k" := (bind m (fun x => k))
  (at level 100, m at next level, right associativity) : obs_scope.
Notation "m ;;; k" := (bind m (fun _ => k))
  (at level 100, right associativity) : obs_scope.
Local Open Scope obs_scope.

Definition trace {A} (m : M A) : list event := fst m.
Definition result {A} (m : M A) : outcome A := snd m.

(** ** libudev accessors and the [std::string] conversions *)

Definition udev_device_get_property_value (dev : udev_device) (name : string)
  : M (option string) :=
  emit (GetProperty name);;; ret (dev_properties dev !! name).

Definition udev_device_get_devnode (dev : udev_device) : M (option string) :=
  emit GetDevnode;;; ret (dev_devnode dev).

(** The action of a live event; a NULL device has none. *)
Definition udev_device_get_action (dev : option udev_device)
  : M (option string) :=
  emit GetAction;;; ret (d ← dev; dev_action d).

(** Construction of a [std::string] from a C string: a NULL argument is
    undefined behaviour. *)
Definition std_string (p : option string) : M string :=
  match p with
  | Some s => ret s
  | None => undefined
  end.

(** [s.substr(pos)] as a computation. *)
Definition substr (s : string) (pos : N) : M string :=
  match StdString.substr s pos with
  | Some t => ret t
  | None => throw out_of_range
  end.

(** ** The identity resolver: [readId], lines 102-138 *)

Definition readId (dev : udev_device) (noSerialPrefix : string) : M string :=
  serial <- udev_device_get_property_value dev "ID_SERIAL_SHORT";;
  match serial with
  | Some serial => ret serial
  | None =>
      let id := "[" +:+ noSerialPrefix +:+ "/" in
      physPath <- udev_device_get_property_value dev "ID_PATH_TAG";;
      id <- match physPath with
            | Some p =>
                let idx := StdString.find_last_of p "usb-" in
                if (idx <? StdString.size p)%N then
                  t <- substr p (StdString.wrap (idx + 1));;
                  ret (id +:+ t)
                else
                  ret (id +:+ p)
            | None =>
                n <- udev_device_get_devnode dev;;
                n <- std_string n;;
                n <- (if (5 <? StdString.size n)%N then substr n 5 else ret n);;
                ret (id +:+ n)
            end;;
      ret (id +:+ "]")
  end.

(** ** Configuration

    [target_device::subsystem] and [target_device::properties] are declared in
    a header that is not part of the sources at hand; they are parameters of
    the embedding.  [properties] is the filter spec: (name, expected value)
    pairs in declaration order, compared with [std::string] equality. *)
Record target_device : Type := mk_target {
  subsystem : string;
  properties : list (string * string)
}.

(** The data members of [DeviceObserver] that the member functions read. *)
Record DeviceObserver : Type := mk_observer {
  noSerialPrefix_ : string;
  addCallback_ : DeviceCallback;
  removeCallback_ : DeviceCallback
}.

(** ** The property matcher: [invokeIfMatch], lines 141-165 *)

(** [if (!p) p = "[null]";] *)
Definition or_null (p : option string) : string := default "[null]" p.

(** The text streamed to [log_] at lines 155-158. *)
Definition mismatch_message (subsystem name actual expected : string) : string :=
  "Ignoring " +:+ subsystem +:+ " device event as " +:+ name +:+ " is "
    +:+ actual +:+ ", but target device has " +:+ expected.

(** The [for] loop over the filter pairs, lines 142-162.  It yields [false]
    when it leaves through the [return] at line 160, [true] when it runs to
    completion. *)
Fixpoint invokeIfMatch_loop (subsystem : string) (dev : udev_device)
    (filters : list (string * string)) : M bool :=
  match filters with
  | [] => ret true
  | filter :: rest =>
      p <- udev_device_get_property_value dev (fst filter);;
      let p := or_null p in
      if negb (String.eqb p (snd filter)) then
        (if negb (String.eqb (fst filter) "ID_BUS")
            && negb (String.eqb (fst filter) "ID_USB_INTERFACE_NUM")
         then emit (Log (mismatch_message subsystem (fst filter) p (snd filter)))
         else ret tt);;;
        ret false
      else invokeIfMatch_loop subsystem dev rest
  end.

(** Modelled from the spec: [DeviceCallback] is declared in a header that is
    not part of the sources; by the spec its signature is
    (devicePath: string, identity: string).  Calling it with the C string of
    the device node converts the pointer to a [std::string] first. *)
Definition call (callback : nat) (node : option string) (identity : string)
  : M unit :=
  devicePath <- std_string node;;
  emit (Invoke callback devicePath identity).

(** ** The notification channel *)

(** Whether [udevStream_] has been closed, whether a wait issued by
    [async_read_some] is outstanding, and the events queued on the monitor
    socket ([None]: a message libudev cannot turn into a device, for which
    [udev_monitor_receive_device] yields NULL). *)
Record channel : Type := mk_channel {
  closed : bool;
  armed : bool;
  pending : list (option udev_device)
}.

(** The error codes the completion handler tells apart. *)
Inductive error_code : Type :=
| success
| bad_file_descriptor
| other_error.

(** [udev_monitor_receive_device]: NULL when nothing can be read.  This is
    the read on the open monitor socket; [closed] is not consulted, since the
    completion handler gets here only after a wait that resolved without the
    closure signal. *)
Definition udev_monitor_receive_device (ch : channel)
  : M (option udev_device * channel) :=
  emit ReceiveDevice;;;
  match pending ch with
  | [] => ret (None, ch)
  | dev :: rest => ret (dev, mk_channel (closed ch) (armed ch) rest)
  end.

(** A reactor decides when, and with which error code, an outstanding wait
    resolves. *)
Definition reactor : Type := channel -> option error_code.

(** Modelled from the spec: the reactor is an external collaborator.  A wait
    on a closed channel resolves with the channel-closed signal, whether it
    was outstanding when the channel was closed or is issued afterwards; a
    wait on an open channel resolves once an event is queued. *)
Definition wait_resolution : reactor :=
  fun ch =>
    if closed ch then Some bad_file_descriptor
    else match pending ch with
         | [] => None
         | _ :: _ => Some success
         end.

(** A reactor signals closure when every wait on a closed channel resolves
    with [bad_file_descriptor]. *)
Definition signals_closure (resolve : reactor) : Prop :=
  forall ch, closed ch = true -> resolve ch = Some bad_file_descriptor.

Section Observer.

Variable target : target_device.
Variable self : DeviceObserver.

(** [callback] is the handle of a non-empty [DeviceCallback]: both callers
    test the function object before they pass it on.  Line 164 evaluates the
    two arguments (left to right here; C++ leaves the order open) and calls
    the callback. *)
Definition invokeIfMatch (callback : nat) (dev : udev_device) : M unit :=
  matched <- invokeIfMatch_loop (subsystem target) dev (properties target);;
  if matched then
    node <- udev_device_get_devnode dev;;
    identity <- readId dev (noSerialPrefix_ self);;
    call callback node identity
  else ret tt.

(** ** Classification of a live event: [handleDeviceEvent], lines 87-99 *)

(** A NULL [dev] has no action, so the last [match] sees a device whenever
    it sees a handler. *)
Definition handleDeviceEvent (dev : option udev_device) : M unit :=
  action <- udev_device_get_action dev;;
  match action with
  | None => ret tt
  | Some action =>
      let handler : DeviceCallback :=
        if String.eqb action "add" then addCallback_ self
        else if String.eqb action "remove" then removeCallback_ self
        else None in
      match handler, dev with
      | Some h, Some d => invokeIfMatch h d
      | _, _ => ret tt
      end
  end.

(** ** The read loop: [receiveEvent] and [stop], lines 68-85 *)

(** [stop()]. *)
Definition stop (ch : channel) : channel :=
  mk_channel true (armed ch) (pending ch).

(** [receiveEvent()] registers the completion handler and returns. *)
Definition receiveEvent (ch : channel) : M channel :=
  emit Arm;;; ret (mk_channel (closed ch) true (pending ch)).

(** The completion handler passed to [async_read_some], lines 73-84, run
    when the outstanding wait has resolved with [ec].  (Releasing the
    device at line 81 has no effect that is observed here.) *)
Definition on_wait_resolved (ec : error_code) (ch : channel) : M channel :=
  match ec with
  | bad_file_descriptor => ret ch
  | _ =>
      r <- udev_monitor_receive_device ch;;
      handleDeviceEvent (fst r);;;
      receiveEvent (snd r)
  end.

Variable resolve : reactor.

(** One turn of the reactor: if the outstanding wait has resolved, it is
    consumed and its completion handler runs. *)
Definition poll (ch : channel) : M channel :=
  if armed ch then
    match resolve ch with
    | Some ec =>
        on_wait_resolved ec (mk_channel (closed ch) false (pending ch))
    | None => ret ch
    end
  else ret ch.

(** What can happen to a started observer, one thing at a time: a call of
    [stop()], the arrival of an event on the monitor socket, a turn of the
    reactor. *)
Inductive input : Type :=
| CallStop
| Enqueue (dev : option udev_device)
| Poll.

Definition step (ch : channel) (i : input) : M channel :=
  match i with
  | CallStop => ret (stop ch)
  | Enqueue dev =>
      ret (mk_channel (closed ch) (armed ch) (pending ch ++ [dev])%list)
  | Poll => poll ch
  end.

Fixpoint run (ch : channel) (inputs : list input) : M channel :=
  match inputs with
  | [] => ret ch
  | i :: rest => ch' <- step ch i;; run ch' rest
  end.

End Observer.

(** ** Reading a trace *)

(** The diagnostics of a trace, in order. *)
Fixpoint logs (t : list event) : list string :=
  match t with
  | [] => []
  | Log m :: t' => m :: logs t'
  | _ :: t' => logs t'
  end.

(** The names of the properties read, in order. *)
Fixpoint property_reads (t : list event) : list string :=
  match t with
  | [] => []
  | GetProperty n :: t' => n :: property_reads t'
  | _ :: t' => property_reads t'
  end.

(** The callback invocations of a trace, in order. *)
Fixpoint invocations (t : list event) : list (nat * string * string) :=
  match t with
  | [] => []
  | Invoke cb path id :: t' => (cb, path, id) :: invocations t'
  | _ :: t' => invocations t'
  end.

(** A filter pair holds of a device record. *)
Definition pair_matches (dev : udev_device) (filter : string * string) : Prop :=
  or_null (dev_properties dev !! fst filter) = snd filter.

(** [with_path_tag tag dev] and [with_devnode node dev]: the record [dev] with
    its path tag, resp. its device node, replaced ([None] removes it). *)
Definition with_path_tag (tag : option string) (dev : udev_device) : udev_device :=
  mk_device (dev_action dev)
    (match tag with
     | Some t => <["ID_PATH_TAG" := t]> (dev_properties dev)
     | None => delete "ID_PATH_TAG" (dev_properties dev)
     end)
    (dev_devnode dev).

Definition with_devnode (node : option string) (dev : udev_device) : udev_device :=
  mk_device (dev_action dev) (dev_properties dev) node.

(** ** What the branches compute *)

(** The suffix the path-tag branch computes from the tag [p]. *)
Definition path_tag_suffix (p : string) : string :=
  let idx := StdString.find_last_of p "usb-" in
  if (idx <? StdString.size p)%N
  then StdString.skip (N.to_nat (StdString.wrap (idx + 1))) p
  else p.

(** The suffix the device-node branch computes from the node path [n]. *)
Definition devnode_suffix (n : string) : string :=
  if (5 <? StdString.size n)%N then StdString.skip 5 n else n.

Definition reads_of (filters : list (string * string)) : list event :=
  map (fun f => GetProperty (fst f)) filters.

(** What the loop logs when it stops at the pair [(name, expected)]. *)
Definition mismatch_events (subsystem : string) (dev : udev_device)
    (name expected : string) : list event :=
  if negb (String.eqb name "ID_BUS")
     && negb (String.eqb name "ID_USB_INTERFACE_NUM")
  then [Log (mismatch_message subsystem name
               (or_null (dev_properties dev !! name)) expected)]
  else [].

(** The events that arrive during [inputs], in order. *)
Definition arrivals (inputs : list input) : list (option udev_device) :=
  omap (fun i => match i with Enqueue d => Some d | _ => None end) inputs.

(** ** Example records *)

(** The observer of the spec's end-to-end scenarios: family prefix "evil",
    both callbacks installed, devices of vendor Acme on the tty subsystem. *)
Definition acme_target : target_device :=
  mk_target "tty" [("ID_BUS", "usb"); ("ID_VENDOR", "Acme")].

Definition evil_observer : DeviceObserver :=
  mk_observer "evil" (Some 1%nat) (Some 2%nat).

(** The end-to-end record of the spec: a tty device of vendor Acme with
    serial number ABC123 at /dev/ttyUSB0. *)
Definition acme_device : udev_device :=
  mk_device (Some "add")
    {[ "ID_VENDOR" := "Acme"; "ID_SERIAL_SHORT" := "ABC123" ]}
    (Some "/dev/ttyUSB0").

Definition acme_usb_device : udev_device :=
  mk_device (Some "add")
    {[ "ID_BUS" := "usb"; "ID_VENDOR" := "Acme";
       "ID_SERIAL_SHORT" := "ABC123" ]}
    (Some "/dev/ttyUSB0").

Definition otherco_device : udev_device :=
  mk_device (Some "add")
    {[ "ID_BUS" := "usb"; "ID_VENDOR" := "OtherCo" ]}
    (Some "/dev/ttyUSB1").

Definition change_event : udev_device :=
  mk_device (Some "change")
    {[ "ID_BUS" := "usb"; "ID_VENDOR" := "Acme" ]}
    (Some "/dev/ttyUSB0").

Definition hub_device : udev_device :=
  mk_device (Some "add")
    {[ "ID_PATH_TAG" := "pci-0000:00:14.0-usb-0:3:1.0" ]}
    (Some "/dev/ttyUSB0").

(** A record whose path tag goes on after the USB part. *)
Definition bridged_device : udev_device :=
  mk_device (Some "add")
    {[ "ID_PATH_TAG" := "pci-0000_00_14_0-usb-0_3_1_0-scsi-0_0_0_0" ]}
    (Some "/dev/ttyUSB0").

Definition bare_device (node : option string) : udev_device :=
  mk_device None ∅ node.

(** ** Enumeration at start-up: [start], lines 42-66 *)

(** libudev's accessors yield NULL when they are handed a NULL device: such a
    device reads as a record without action, properties and device node. *)
Definition null_device : udev_device := mk_device None ∅ None.

Definition deref (dev : option udev_device) : udev_device :=
  default null_device dev.

Section Start.

Variable target : target_device.
Variable self : DeviceObserver.

(** The [udev_list_entry_foreach] loop, lines 56-60.  [scan] holds, in the
    order of the enumeration, what [udev_device_new_from_syspath] yields for
    each entry (NULL when the device cannot be opened).  The enumeration
    calls guarded by the assertions at lines 45-52 are taken to succeed. *)
Fixpoint start_loop (callback : nat) (scan : list (option udev_device))
  : M unit :=
  match scan with
  | [] => ret tt
  | dev :: rest =>
      invokeIfMatch target self callback (deref dev);;;
      start_loop callback rest
  end.

(** [start()]. *)
Definition start (scan : list (option udev_device)) (ch : channel)
  : M channel :=
  (match addCallback_ self with
   | Some callback => start_loop callback scan
   | None => ret tt
   end);;;
  receiveEvent ch.

End Start.

(** ** Deliveries *)

(** The filter spec holds of a record, as a boolean. *)
Definition matches (dev : udev_device) (filters : list (string * string))
  : bool :=
  forallb
    (fun f => String.eqb (or_null (dev_properties dev !! fst f)) (snd f))
    filters.

(** The invocation owed to a record through the callback [callback]: one,
    with the record's device node and identity, when the record matches. *)
Definition delivery (target : target_device) (self : DeviceObserver)
    (callback : nat) (dev : udev_device) : list (nat * string * string) :=
  if matches dev (properties target) then
    match dev_devnode dev, result (readId dev (noSerialPrefix_ self)) with
    | Some node, Ret identity => [(callback, node, identity)]
    | _, _ => []
    end
  else [].

(** The callback installed for an action tag. *)
Definition handler_of (self : DeviceObserver) (action : option string)
  : DeviceCallback :=
  match action with
  | Some action =>
      if String.eqb action "add" then addCallback_ self
      else if String.eqb action "remove" then removeCallback_ self
      else None
  | None => None
  end.

(** The invocation owed to a dequeued live event. *)
Definition live_delivery (target : target_device) (self : DeviceObserver)
    (dev : option udev_device) : list (nat * string * string) :=
  match dev with
  | Some d =>
      match handler_of self (dev_action d) with
      | Some callback => delivery target self callback d
      | None => []
      end
  | None => []
  end.

(** The number of events that [inputs] make the read loop dequeue from a
    queue that holds [queued] events: every reactor turn that finds an event
    takes one. *)
Fixpoint dequeued (queued : nat) (inputs : list input) : nat :=
  match inputs with
  | [] => 0
  | Enqueue _ :: rest => dequeued (S queued) rest
  | Poll :: rest =>
      match queued with
      | O => dequeued O rest
      | S queued' => S (dequeued queued' rest)
      end
  | CallStop :: rest => dequeued queued rest
  end.

(** A reactor wakes on events when, on an open channel, a wait resolves
    exactly if an event is queued, and then without the closure signal. *)
Definition wakes_on_event (resolve : reactor) : Prop :=
  forall ch,
    closed ch = false ->
    match pending ch with
    | [] => resolve ch = None
    | _ :: _ => exists ec, resolve ch = Some ec /\ ec <> bad_file_descriptor
    end.

(** [with_property name value dev]: the record [dev] with the property
    [name] set to [value], or removed for [None]. *)
Definition with_property (name : string) (value : option string)
    (dev : udev_device) : udev_device :=
  mk_device (dev_action dev)
    (match value with
     | Some v => <[name := v]> (dev_properties dev)
     | None => delete name (dev_properties dev)
     end)
    (dev_devnode dev).

(** A record can be delivered when, if it matches, it has a device node to
    hand to the callback. *)
Definition deliverable (target : target_device) (dev : udev_device) : Prop :=
  matches dev (properties target) = true -> dev_devnode dev <> None.

Definition live_deliverable (target : target_device)
    (dev : option udev_device) : Prop :=
  forall d, dev = Some d -> deliverable target d.

(** A serial port that is not on a USB bus. *)
Definition platform_device : udev_device :=
  mk_device (Some "add")
    {[ "ID_PATH_TAG" := "platform-serial8250" ]}
    (Some "/dev/ttyS0").

(** The removal of the Acme device. *)
Definition removed_device : udev_device :=
  mk_device (Some "remove")
    {[ "ID_BUS" := "usb"; "ID_VENDOR" := "Acme";
       "ID_SERIAL_SHORT" := "ABC123" ]}
    (Some "/dev/ttyUSB0").

(** A filter pair as the spec words it: the record's property of that name,
    an absent one read as the text "[null]", is equal to the expected
    value. *)
Definition pair_holds (dev : udev_device) (filter : string * string) : Prop :=
  match dev_properties dev !! fst filter with
  | Some value => value = snd filter
  | None => "[null]" = snd filter
  end.

(** A filter spec that asks for a USB device without path tag. *)
Definition untagged_target : target_device :=
  mk_target "tty" [("ID_BUS", "usb"); ("ID_PATH_TAG", "[null]")].

(** An Acme device that udev reports without serial number, path tag and
    device node. *)
Definition nodeless_device : udev_device :=
  mk_device (Some "add")
    {[ "ID_BUS" := "usb"; "ID_VENDOR" := "Acme" ]}
    None.

(** * Properties *)

(** ** Strings *)

Lemma append_cons (x : ascii) (a b : string) :
  String x a +:+ b = String x (a +:+ b).
Proof. reflexivity. Qed.

Lemma append_assoc (a b c : string) : (a +:+ b) +:+ c = a +:+ b +:+ c.
Proof.
  induction a as [|x a IH]; [reflexivity|].
  rewrite !append_cons. now rewrite IH.
Qed.

Lemma skip_append (a b : string) : StdString.skip (String.length a) (a +:+ b) = b.
Proof.
  induction a as [|x a IH]; [now destruct b|].
  rewrite append_cons. exact IH.
Qed.

Lemma size_append (a b : string) :
  StdString.size (a +:+ b) = (StdString.size a + StdString.size b)%N.
Proof.
  unfold StdString.size.
  induction a as [|x a IH]; [reflexivity|].
  rewrite append_cons. simpl String.length. lia.
Qed.

Lemma wrap_le (n : N) : (StdString.wrap n <= n)%N.
Proof. unfold StdString.wrap. apply N.Div0.mod_le. Qed.

(** [substr] does not throw at a position inside the string. *)
Lemma substr_in_range (s : string) (pos : N) :
  (pos <= StdString.size s)%N ->
  substr s pos = ret (StdString.skip (N.to_nat pos) s).
Proof.
  intros Hle. unfold substr, StdString.substr.
  destruct (N.ltb_spec (StdString.size s) pos) as [Hlt | _]; [lia | reflexivity].
Qed.

(** ** [find_last_of] and [rfind] *)

Lemma find_last_of_from_none (set p : string) (i last : N) :
  StdString.none_of set p = true ->
  StdString.find_last_of_from set p i last = last.
Proof.
  revert i last. induction p as [|c p IH]; intros i last H; [reflexivity|].
  cbn in H. apply andb_prop in H as [Hc Hp].
  apply negb_true_iff in Hc. cbn. rewrite Hc. now apply IH.
Qed.

(** The scan stops at the last character that belongs to the set. *)
Lemma find_last_of_from_last (set head tail : string) (c : ascii) (i last : N) :
  StdString.mem c set = true ->
  StdString.none_of set tail = true ->
  StdString.find_last_of_from set (head +:+ String c tail) i last
  = (i + StdString.size head)%N.
Proof.
  intros Hc Htail. revert i last.
  induction head as [|x head IH]; intros i last.
  - change ("" +:+ String c tail) with (String c tail).
    cbn [StdString.find_last_of_from]. rewrite Hc.
    rewrite find_last_of_from_none by exact Htail.
    unfold StdString.size. cbn. lia.
  - rewrite append_cons. cbn [StdString.find_last_of_from]. rewrite IH.
    unfold StdString.size. cbn [String.length]. lia.
Qed.

(** A string without the character 'u' holds no occurrence of "usb-". *)
Lemma rfind_from_no_u (q : string) (i : nat) (last : option nat) :
  StdString.none_of "u" q = true ->
  StdString.rfind_from "usb-" q i last = last.
Proof.
  revert i last. induction q as [|c q IH]; intros i last H; [reflexivity|].
  cbn in H. apply andb_prop in H as [Hc Hq].
  cbn [StdString.rfind_from StdString.starts_with].
  rewrite Ascii.eqb_sym.
  destruct (Ascii.eqb c "u"); [discriminate|]. now apply IH.
Qed.

Lemma none_of_usb_no_u (s : string) :
  StdString.none_of "usb-" s = true -> StdString.none_of "u" s = true.
Proof.
  induction s as [|c s IH]; [reflexivity|]. cbn.
  intros H. apply andb_prop in H as [Hc Hs]. rewrite (IH Hs).
  destruct (Ascii.eqb c "u"); [discriminate | reflexivity].
Qed.

(** [rfind] finds the marker in front of a tail without marker characters. *)
Lemma after_last_marker (head tail : string) :
  StdString.none_of "usb-" tail = true ->
  StdString.after_last "usb-" (head +:+ "usb-" +:+ tail) = Some tail.
Proof.
  intros Htail. unfold StdString.after_last, StdString.rfind.
  assert (H : forall i last,
             StdString.rfind_from "usb-" (head +:+ "usb-" +:+ tail) i last
             = Some (i + String.length head)%nat).
  { induction head as [|x head IH]; intros i last.
    - change ("" +:+ "usb-" +:+ tail) with (String "u" ("sb-" +:+ tail)).
      cbn [StdString.rfind_from].
      rewrite rfind_from_no_u.
      + change (String "u" ("sb-" +:+ tail)) with ("usb-" +:+ tail).
        assert (Hs : forall pat s, StdString.starts_with pat (pat +:+ s) = true).
        { induction pat as [|a pat IHp]; intros s; [reflexivity|].
          rewrite append_cons. cbn. now rewrite Ascii.eqb_refl. }
        rewrite Hs. cbn. f_equal. lia.
      + change ("sb-" +:+ tail) with (String "s" (String "b" (String "-" tail))).
        cbn. now apply none_of_usb_no_u.
    - rewrite append_cons. cbn [StdString.rfind_from]. rewrite IH.
      cbn [String.length]. f_equal. lia. }
  rewrite H. cbn [Nat.add]. f_equal.
  rewrite <- (skip_append (head +:+ "usb-") tail) at 2.
  rewrite append_assoc. f_equal.
  clear. induction head as [|x head IH]; [reflexivity|].
  rewrite append_cons. cbn [String.length]. now rewrite <- IH.
Qed.

(** ** The identity resolver, branch by branch *)

Section ReadId.

Variable dev : udev_device.
Variable noSerialPrefix : string.

Lemma readId_serial (serial : string) :
  dev_properties dev !! "ID_SERIAL_SHORT" = Some serial ->
  readId dev noSerialPrefix = ([GetProperty "ID_SERIAL_SHORT"], Ret serial).
Proof.
  intros H. unfold readId, udev_device_get_property_value. cbn.
  rewrite H. reflexivity.
Qed.

Lemma readId_path_tag (p : string) :
  dev_properties dev !! "ID_SERIAL_SHORT" = None ->
  dev_properties dev !! "ID_PATH_TAG" = Some p ->
  readId dev noSerialPrefix =
    ([GetProperty "ID_SERIAL_SHORT"; GetProperty "ID_PATH_TAG"],
     Ret ("[" +:+ noSerialPrefix +:+ "/" +:+ path_tag_suffix p +:+ "]")).
Proof.
  intros Hs Hp. unfold readId, udev_device_get_property_value, path_tag_suffix.
  cbn. rewrite Hs. cbn. rewrite Hp. cbn.
  destruct (N.ltb_spec (StdString.find_last_of p "usb-") (StdString.size p))
    as [Hlt | Hge].
  - rewrite substr_in_range by (pose proof (wrap_le (StdString.find_last_of p "usb-" + 1)); lia).
    cbn. now rewrite !append_assoc.
  - cbn. now rewrite !append_assoc.
Qed.

(** What the path-tag branch computes: the tag is cut after its last
    character out of 'u', 's', 'b', '-', and kept whole when it has none. *)
Lemma path_tag_suffix_cut (head tail : string) (c : ascii) :
  StdString.mem c "usb-" = true ->
  StdString.none_of "usb-" tail = true ->
  (StdString.size (head +:+ String c tail) < StdString.size_max)%N ->
  path_tag_suffix (head +:+ String c tail) = tail.
Proof.
  intros Hc Htail Hsize. unfold path_tag_suffix, StdString.find_last_of.
  rewrite (find_last_of_from_last "usb-" head tail c 0 StdString.npos Hc Htail).
  rewrite size_append in *. unfold StdString.size in *.
  cbn [String.length] in *.
  destruct (N.ltb_spec (0 + N.of_nat (String.length head))
              (N.of_nat (String.length head)
               + N.of_nat (S (String.length tail)))) as [_ | Hge]; [|lia].
  unfold StdString.wrap. rewrite N.mod_small by lia.
  replace (N.to_nat (0 + N.of_nat (String.length head) + 1))
    with (String.length (head +:+ String c "")).
  - rewrite <- (skip_append (head +:+ String c "") tail) at 2.
    now rewrite append_assoc.
  - clear. induction head as [|x head IH]; [reflexivity|].
    rewrite append_cons. cbn [String.length]. lia.
Qed.

Lemma path_tag_suffix_whole (p : string) :
  StdString.none_of "usb-" p = true ->
  (StdString.size p < StdString.size_max)%N ->
  path_tag_suffix p = p.
Proof.
  intros Hp Hsize. unfold path_tag_suffix, StdString.find_last_of.
  rewrite find_last_of_from_none by exact Hp.
  destruct (N.ltb_spec StdString.npos (StdString.size p)) as [Hlt | _];
    [|reflexivity].
  unfold StdString.npos in Hlt. lia.
Qed.

Lemma readId_devnode (n : string) :
  dev_properties dev !! "ID_SERIAL_SHORT" = None ->
  dev_properties dev !! "ID_PATH_TAG" = None ->
  dev_devnode dev = Some n ->
  readId dev noSerialPrefix =
    ([GetProperty "ID_SERIAL_SHORT"; GetProperty "ID_PATH_TAG"; GetDevnode],
     Ret ("[" +:+ noSerialPrefix +:+ "/" +:+ devnode_suffix n +:+ "]")).
Proof.
  intros Hs Hp Hn.
  unfold readId, udev_device_get_property_value, udev_device_get_devnode,
    devnode_suffix.
  cbn. rewrite Hs. cbn. rewrite Hp. cbn. rewrite Hn. cbn.
  destruct (N.ltb_spec 5 (StdString.size n)) as [Hlt | Hge].
  - rewrite substr_in_range by lia. cbn. now rewrite !append_assoc.
  - cbn. now rewrite !append_assoc.
Qed.

Lemma readId_nothing :
  dev_properties dev !! "ID_SERIAL_SHORT" = None ->
  dev_properties dev !! "ID_PATH_TAG" = None ->
  dev_devnode dev = None ->
  readId dev noSerialPrefix =
    ([GetProperty "ID_SERIAL_SHORT"; GetProperty "ID_PATH_TAG"; GetDevnode],
     Undefined).
Proof.
  intros Hs Hp Hn.
  unfold readId, udev_device_get_property_value, udev_device_get_devnode.
  cbn. rewrite Hs. cbn. rewrite Hp. cbn. rewrite Hn. reflexivity.
Qed.

(** [readId] returns as soon as the record has a device node. *)
Lemma readId_returns (n : string) :
  dev_devnode dev = Some n ->
  exists t identity, readId dev noSerialPrefix = (t, Ret identity).
Proof.
  intros Hn.
  destruct (dev_properties dev !! "ID_SERIAL_SHORT") as [serial|] eqn:Hs.
  - eauto using readId_serial.
  - destruct (dev_properties dev !! "ID_PATH_TAG") as [p|] eqn:Hp.
    + eauto using readId_path_tag.
    + eauto using readId_devnode.
Qed.

(** [readId] performs no callback and writes no diagnostic. *)
Lemma readId_quiet :
  invocations (trace (readId dev noSerialPrefix)) = []
  /\ logs (trace (readId dev noSerialPrefix)) = [].
Proof.
  destruct (dev_properties dev !! "ID_SERIAL_SHORT") as [serial|] eqn:Hs.
  - now rewrite (readId_serial _ Hs).
  - destruct (dev_properties dev !! "ID_PATH_TAG") as [p|] eqn:Hp.
    + now rewrite (readId_path_tag _ Hs Hp).
    + destruct (dev_devnode dev) as [n|] eqn:Hn.
      * now rewrite (readId_devnode _ Hs Hp Hn).
      * now rewrite (readId_nothing Hs Hp Hn).
Qed.

End ReadId.

(** ** Claims about the identity resolver *)

(** C3: when ID_SERIAL_SHORT is present and non-empty, [readId] returns its
    value exactly; it reads nothing but that property, and replacing the path
    tag, the device node or the family prefix does not change what it
    does. *)
Theorem readId_serial_verbatim
    (dev : udev_device) (noSerialPrefix serial : string) :
  dev_properties dev !! "ID_SERIAL_SHORT" = Some serial ->
  serial <> "" ->
  readId dev noSerialPrefix = ([GetProperty "ID_SERIAL_SHORT"], Ret serial)
  /\ forall tag node prefix',
       readId (with_path_tag tag (with_devnode node dev)) prefix'
       = readId dev noSerialPrefix.
Proof.
  intros Hs _. split; [now apply readId_serial|].
  intros tag node prefix'.
  rewrite (readId_serial dev noSerialPrefix serial Hs).
  apply readId_serial.
  destruct tag as [t|]; cbn.
  - now rewrite lookup_insert_ne.
  - now rewrite lookup_delete_ne.
Qed.

Lemma readId_serial_verbatim_witness :
  readId acme_device "evil" = ([GetProperty "ID_SERIAL_SHORT"], Ret "ABC123")
  /\ forall tag node prefix',
       readId (with_path_tag tag (with_devnode node acme_device)) prefix'
       = readId acme_device "evil".
Proof.
  apply (readId_serial_verbatim acme_device "evil" "ABC123");
    [reflexivity | discriminate].
Defined.

(** C9: a serial number that is present but empty is returned as it is; the
    synthetic identity (whose construction starts with reading the path tag)
    is entered exactly when the serial property is absent. *)
Theorem readId_empty_serial (dev : udev_device) (noSerialPrefix : string) :
  (dev_properties dev !! "ID_SERIAL_SHORT" = Some "" ->
   readId dev noSerialPrefix = ([GetProperty "ID_SERIAL_SHORT"], Ret ""))
  /\ (In (GetProperty "ID_PATH_TAG") (trace (readId dev noSerialPrefix))
      \/ In GetDevnode (trace (readId dev noSerialPrefix))
      <-> dev_properties dev !! "ID_SERIAL_SHORT" = None).
Proof.
  split; [apply readId_serial|].
  destruct (dev_properties dev !! "ID_SERIAL_SHORT") as [serial|] eqn:Hs.
  - rewrite (readId_serial dev noSerialPrefix serial Hs). cbn.
    split; [|discriminate]. intros [[H|[]]|[H|[]]]; discriminate.
  - split; [reflexivity|]. intros _. left.
    destruct (dev_properties dev !! "ID_PATH_TAG") as [p|] eqn:Hp.
    + rewrite (readId_path_tag dev noSerialPrefix p Hs Hp). cbn. auto.
    + destruct (dev_devnode dev) as [n|] eqn:Hn.
      * rewrite (readId_devnode dev noSerialPrefix n Hs Hp Hn). cbn. auto.
      * rewrite (readId_nothing dev noSerialPrefix Hs Hp Hn). cbn. auto.
Qed.

(** C4: without serial number and path tag, the identity is
    [[<prefix>/<suffix>]] where the suffix is the device node path without
    its first five characters (without its leading "/dev/", when it has one)
    if the path is longer than five characters, and the whole path
    otherwise. *)
Theorem readId_devnode_fallback
    (dev : udev_device) (noSerialPrefix n : string) :
  dev_properties dev !! "ID_SERIAL_SHORT" = None ->
  dev_properties dev !! "ID_PATH_TAG" = None ->
  dev_devnode dev = Some n ->
  exists suffix,
    result (readId dev noSerialPrefix)
    = Ret ("[" +:+ noSerialPrefix +:+ "/" +:+ suffix +:+ "]")
    /\ ((String.length "/dev/" < String.length n)%nat ->
        suffix = StdString.skip (String.length "/dev/") n
        /\ forall rest, n = "/dev/" +:+ rest -> suffix = rest)
    /\ ((String.length n <= String.length "/dev/")%nat -> suffix = n).
Proof.
  intros Hs Hp Hn. exists (devnode_suffix n).
  rewrite (readId_devnode dev noSerialPrefix n Hs Hp Hn).
  split; [reflexivity|]. unfold devnode_suffix, StdString.size.
  change (String.length "/dev/") with 5%nat.
  destruct (N.ltb_spec 5 (N.of_nat (String.length n))) as [Hlt | Hge].
  - split; [|lia]. intros _. split; [reflexivity|].
    intros rest ->. apply (skip_append "/dev/").
  - split; [lia | reflexivity].
Qed.

Lemma readId_devnode_fallback_witness :
  exists suffix,
    result (readId (bare_device (Some "/dev/ttyUSB0")) "evil")
    = Ret ("[" +:+ "evil" +:+ "/" +:+ suffix +:+ "]")
    /\ ((String.length "/dev/" < String.length "/dev/ttyUSB0")%nat ->
        suffix = StdString.skip (String.length "/dev/") "/dev/ttyUSB0"
        /\ forall rest, "/dev/ttyUSB0" = "/dev/" +:+ rest -> suffix = rest)
    /\ ((String.length "/dev/ttyUSB0" <= String.length "/dev/")%nat ->
        suffix = "/dev/ttyUSB0").
Proof.
  apply (readId_devnode_fallback (bare_device (Some "/dev/ttyUSB0")) "evil"
           "/dev/ttyUSB0"); reflexivity.
Defined.

(** C10: in the device-node branch the first five characters are dropped
    whatever they are: a node path made of any five characters [head]
    followed by a non-empty [rest] yields the suffix [rest]. *)
Theorem readId_devnode_strips_by_position
    (dev : udev_device) (noSerialPrefix head rest : string) :
  dev_properties dev !! "ID_SERIAL_SHORT" = None ->
  dev_properties dev !! "ID_PATH_TAG" = None ->
  dev_devnode dev = Some (head +:+ rest) ->
  String.length head = 5%nat ->
  rest <> "" ->
  result (readId dev noSerialPrefix)
  = Ret ("[" +:+ noSerialPrefix +:+ "/" +:+ rest +:+ "]").
Proof.
  intros Hs Hp Hn Hhead Hrest.
  rewrite (readId_devnode dev noSerialPrefix _ Hs Hp Hn). cbn.
  unfold devnode_suffix. rewrite size_append. unfold StdString.size at 1.
  rewrite Hhead.
  destruct (N.ltb_spec 5 (N.of_nat 5 + StdString.size rest)) as [_ | Hge].
  - rewrite <- Hhead. now rewrite skip_append.
  - destruct rest; [congruence|]. unfold StdString.size in Hge.
    simpl String.length in Hge. lia.
Qed.

Lemma readId_devnode_strips_by_position_witness :
  result (readId (bare_device (Some "/run/ttyACM3")) "evil")
  = Ret ("[" +:+ "evil" +:+ "/" +:+ "ttyACM3" +:+ "]").
Proof.
  apply (readId_devnode_strips_by_position
           (bare_device (Some "/run/ttyACM3")) "evil" "/run/" "ttyACM3");
    [reflexivity | reflexivity | reflexivity | reflexivity | discriminate].
Defined.

(** C5 (the code departs from the claim): a record with no serial number, no
    path tag and no device node makes [readId] construct a [std::string] from
    a NULL pointer at line 128. *)
Theorem readId_null_devnode_undefined :
  readId (bare_device None) "evil"
  = ([GetProperty "ID_SERIAL_SHORT"; GetProperty "ID_PATH_TAG"; GetDevnode],
     Undefined).
Proof. reflexivity. Qed.

(** X2: [readId] returns an identity exactly for the records that have a
    serial number, a path tag or a device node; it never throws. *)
Theorem readId_returns_iff (dev : udev_device) (noSerialPrefix : string) :
  ((exists identity, result (readId dev noSerialPrefix) = Ret identity)
   <-> dev_properties dev !! "ID_SERIAL_SHORT" <> None
       \/ dev_properties dev !! "ID_PATH_TAG" <> None
       \/ dev_devnode dev <> None)
  /\ forall e, result (readId dev noSerialPrefix) <> Throw e.
Proof.
  destruct (dev_properties dev !! "ID_SERIAL_SHORT") as [serial|] eqn:Hs.
  - rewrite (readId_serial dev noSerialPrefix serial Hs).
    split; [split; eauto|]; easy.
  - destruct (dev_properties dev !! "ID_PATH_TAG") as [p|] eqn:Hp.
    + rewrite (readId_path_tag dev noSerialPrefix p Hs Hp).
      split; [split; eauto|]; easy.
    + destruct (dev_devnode dev) as [n|] eqn:Hn.
      * rewrite (readId_devnode dev noSerialPrefix n Hs Hp Hn).
        split; [split; eauto|]; easy.
      * rewrite (readId_nothing dev noSerialPrefix Hs Hp Hn).
        split; [split|]; [intros [identity H]; discriminate | | easy].
        intros [H | [H | H]]; congruence.
Qed.

(** X1: where the path-tag branch does cut at the marker: on a tag whose part
    after "usb-" holds none of the characters 'u', 's', 'b', '-', the suffix
    of the identity is that part, which is also the part after the last
    occurrence of "usb-". *)
Theorem readId_path_tag_after_marker
    (dev : udev_device) (noSerialPrefix head tail : string) :
  dev_properties dev !! "ID_SERIAL_SHORT" = None ->
  dev_properties dev !! "ID_PATH_TAG" = Some (head +:+ "usb-" +:+ tail) ->
  StdString.none_of "usb-" tail = true ->
  (StdString.size (head +:+ "usb-" +:+ tail) < StdString.size_max)%N ->
  result (readId dev noSerialPrefix)
  = Ret ("[" +:+ noSerialPrefix +:+ "/" +:+ tail +:+ "]")
  /\ StdString.after_last "usb-" (head +:+ "usb-" +:+ tail) = Some tail.
Proof.
  intros Hs Hp Htail Hsize. split; [|now apply after_last_marker].
  rewrite (readId_path_tag dev noSerialPrefix _ Hs Hp). cbn [result snd].
  replace (head +:+ "usb-" +:+ tail) with ((head +:+ "usb") +:+ String "-" tail)
    in * by now rewrite append_assoc.
  now rewrite path_tag_suffix_cut.
Qed.

Lemma readId_path_tag_after_marker_witness :
  result (readId hub_device "evil") = Ret "[evil/0:3:1.0]".
Proof.
  refine (proj1 (readId_path_tag_after_marker hub_device "evil"
                   "pci-0000:00:14.0-" "0:3:1.0" _ _ _ _));
    reflexivity.
Defined.

(** C1 (the code departs from the claim): [find_last_of] looks for the last
    character out of 'u', 's', 'b', '-', not for the last occurrence of
    "usb-"; on a tag with such a character after the marker the suffix is cut
    later than the marker. *)
Theorem readId_path_tag_cut_after_marker :
  result (readId bridged_device "evil") = Ret "[evil/0_0_0_0]"
  /\ StdString.after_last "usb-" "pci-0000_00_14_0-usb-0_3_1_0-scsi-0_0_0_0"
     = Some "0_3_1_0-scsi-0_0_0_0".
Proof. split; reflexivity. Qed.

(** ** The property matcher *)

Lemma pair_matches_dec (dev : udev_device) (filter : string * string) :
  {pair_matches dev filter} + {~ pair_matches dev filter}.
Proof. unfold pair_matches. apply String.eq_dec. Qed.

(** A filter spec either holds pair by pair or has a first failing pair. *)
Lemma first_mismatch (dev : udev_device) (filters : list (string * string)) :
  Forall (pair_matches dev) filters
  \/ exists before name expected after,
       filters = (before ++ (name, expected) :: after)%list
       /\ Forall (pair_matches dev) before
       /\ ~ pair_matches dev (name, expected).
Proof.
  induction filters as [|[name expected] rest IH]; [left; constructor|].
  destruct (pair_matches_dec dev (name, expected)) as [Hm | Hm].
  - destruct IH as [IH | (before & n & e & after & -> & Hb & Hn)].
    + left. now constructor.
    + right. exists ((name, expected) :: before), n, e, after.
      repeat split; [now constructor | exact Hn].
  - right. exists [], name, expected, rest. repeat split; [constructor | exact Hm].
Qed.

Section Loop.

Variable sub : string.
Variable dev : udev_device.

Lemma loop_all_match (filters : list (string * string)) :
  Forall (pair_matches dev) filters ->
  invokeIfMatch_loop sub dev filters = (reads_of filters, Ret true).
Proof.
  induction 1 as [|[name expected] rest Hm _ IH]; [reflexivity|].
  cbn. unfold pair_matches in Hm. cbn in Hm. rewrite Hm.
  rewrite String.eqb_refl. cbn. now rewrite IH.
Qed.

Lemma loop_first_mismatch before name expected after :
  Forall (pair_matches dev) before ->
  ~ pair_matches dev (name, expected) ->
  invokeIfMatch_loop sub dev (before ++ (name, expected) :: after)
  = ((reads_of before ++ GetProperty name
        :: mismatch_events sub dev name expected)%list,
     Ret false).
Proof.
  intros Hb Hn. induction Hb as [|[n e] rest Hm _ IH].
  - cbn. unfold pair_matches in Hn. cbn in Hn.
    apply String.eqb_neq in Hn. rewrite Hn. cbn.
    unfold mismatch_events.
    destruct (negb (name =? "ID_BUS") && negb (name =? "ID_USB_INTERFACE_NUM"));
      reflexivity.
  - cbn. unfold pair_matches in Hm. cbn in Hm. rewrite Hm.
    rewrite String.eqb_refl. cbn.
    now rewrite IH.
Qed.

Lemma loop_passes_iff (filters : list (string * string)) :
  result (invokeIfMatch_loop sub dev filters) = Ret true
  <-> Forall (pair_matches dev) filters.
Proof.
  split.
  - intros Hr.
    destruct (first_mismatch dev filters)
      as [Hall | (before & n & e & after & -> & Hb & Hn)]; [exact Hall|].
    rewrite (loop_first_mismatch _ _ _ _ Hb Hn) in Hr. discriminate.
  - intros Hall. now rewrite (loop_all_match _ Hall).
Qed.

End Loop.

Lemma property_reads_app (t u : list event) :
  property_reads (t ++ u) = (property_reads t ++ property_reads u)%list.
Proof.
  induction t as [|e t IH]; [reflexivity|].
  destruct e; cbn; now rewrite IH.
Qed.

Lemma logs_app (t u : list event) : logs (t ++ u) = (logs t ++ logs u)%list.
Proof.
  induction t as [|e t IH]; [reflexivity|].
  destruct e; cbn; now rewrite IH.
Qed.

Lemma invocations_app (t u : list event) :
  invocations (t ++ u) = (invocations t ++ invocations u)%list.
Proof.
  induction t as [|e t IH]; [reflexivity|].
  destruct e; cbn; now rewrite IH.
Qed.

Lemma reads_of_reads (filters : list (string * string)) :
  property_reads (reads_of filters) = map fst filters
  /\ logs (reads_of filters) = []
  /\ invocations (reads_of filters) = [].
Proof.
  induction filters as [|f rest (IH1 & IH2 & IH3)]; [easy|].
  unfold reads_of in *. cbn [map property_reads logs invocations].
  now rewrite IH1.
Qed.

Lemma mismatch_events_quiet sub dev name expected :
  property_reads (mismatch_events sub dev name expected) = []
  /\ invocations (mismatch_events sub dev name expected) = [].
Proof. unfold mismatch_events. now destruct (_ && _). Qed.

Arguments readId : simpl never.

Section InvokeIfMatch.

Variable target : target_device.
Variable self : DeviceObserver.
Variable callback : nat.
Variable dev : udev_device.

(** A failing pair ends [invokeIfMatch] right after the loop. *)
Lemma invokeIfMatch_mismatch before name expected after :
  properties target = (before ++ (name, expected) :: after)%list ->
  Forall (pair_matches dev) before ->
  ~ pair_matches dev (name, expected) ->
  invokeIfMatch target self callback dev
  = ((reads_of before ++ GetProperty name
        :: mismatch_events (subsystem target) dev name expected)%list,
     Ret tt).
Proof.
  intros HF Hb Hn. unfold invokeIfMatch. rewrite HF.
  rewrite (loop_first_mismatch _ _ _ _ _ _ Hb Hn). cbn.
  now rewrite app_nil_r.
Qed.

(** When every pair holds, the loop is followed by the call at line 164. *)
Lemma invokeIfMatch_match :
  Forall (pair_matches dev) (properties target) ->
  invokeIfMatch target self callback dev
  = bind (reads_of (properties target), Ret tt)
      (fun _ =>
         node <- udev_device_get_devnode dev;;
         identity <- readId dev (noSerialPrefix_ self);;
         call callback node identity).
Proof.
  intros Hall. unfold invokeIfMatch.
  now rewrite (loop_all_match _ _ _ Hall).
Qed.

Lemma invokeIfMatch_match_devnode node t identity :
  Forall (pair_matches dev) (properties target) ->
  dev_devnode dev = Some node ->
  readId dev (noSerialPrefix_ self) = (t, Ret identity) ->
  invokeIfMatch target self callback dev
  = ((reads_of (properties target) ++ GetDevnode :: t
        ++ [Invoke callback node identity])%list,
     Ret tt).
Proof.
  intros Hall Hnode Hid. rewrite (invokeIfMatch_match Hall).
  unfold udev_device_get_devnode. cbn. rewrite Hnode. cbn.
  rewrite Hid. reflexivity.
Qed.

End InvokeIfMatch.

(** [invokeIfMatch] in terms of [pair_matches]: when its loop passes, when it
    invokes the callback, and what it reads up to a failing pair. *)
Lemma invokeIfMatch_characterised
    (target : target_device) (self : DeviceObserver) (callback : nat)
    (dev : udev_device) :
  let filters := properties target in
  let m := invokeIfMatch target self callback dev in
  (result (invokeIfMatch_loop (subsystem target) dev filters) = Ret true
   <-> Forall (pair_matches dev) filters)
  /\ (invocations (trace m) <> [] -> Forall (pair_matches dev) filters)
  /\ (forall node,
        dev_devnode dev = Some node ->
        Forall (pair_matches dev) filters
        <-> exists identity,
              result (readId dev (noSerialPrefix_ self)) = Ret identity
              /\ invocations (trace m) = [(callback, node, identity)]
              /\ result m = Ret tt)
  /\ (forall before name expected after,
        filters = (before ++ (name, expected) :: after)%list ->
        Forall (pair_matches dev) before ->
        ~ pair_matches dev (name, expected) ->
        property_reads (trace m) = (map fst before ++ [name])%list
        /\ invocations (trace m) = []
        /\ result m = Ret tt).
Proof.
  intros filters m.
  assert (Hfail : forall before name expected after,
             filters = (before ++ (name, expected) :: after)%list ->
             Forall (pair_matches dev) before ->
             ~ pair_matches dev (name, expected) ->
             property_reads (trace m) = (map fst before ++ [name])%list
             /\ invocations (trace m) = []
             /\ result m = Ret tt).
  { intros before name expected after HF Hb Hn. subst m.
    rewrite (invokeIfMatch_mismatch target self callback dev _ _ _ _ HF Hb Hn).
    cbn [trace result fst snd].
    change (?l ++ ?x :: ?r)%list with (l ++ [x] ++ r)%list.
    rewrite !property_reads_app, !invocations_app.
    destruct (reads_of_reads before) as (-> & _ & ->).
    destruct (mismatch_events_quiet (subsystem target) dev name expected)
      as (-> & ->).
    cbn. easy. }
  assert (Honly : invocations (trace m) <> [] ->
                  Forall (pair_matches dev) filters).
  { intros Hinv.
    destruct (first_mismatch dev filters)
      as [Hall | (before & n & e & after & HF & Hb & Hn)]; [exact Hall|].
    destruct (Hfail _ _ _ _ HF Hb Hn) as (_ & H & _). contradiction. }
  split; [apply loop_passes_iff|]. split; [exact Honly|].
  split; [|exact Hfail].
  intros node Hnode. split.
  - intros Hall.
    destruct (readId_returns dev (noSerialPrefix_ self) node Hnode)
      as (t & identity & Hid).
    exists identity. subst m.
    rewrite (invokeIfMatch_match_devnode target self callback dev
               node t identity Hall Hnode Hid).
    rewrite Hid. cbn [trace result fst snd].
    split; [reflexivity|]. split; [|reflexivity].
    change (?l ++ ?x :: ?r)%list with (l ++ [x] ++ r)%list.
    rewrite !invocations_app.
    destruct (reads_of_reads (properties target)) as (_ & _ & ->).
    destruct (readId_quiet dev (noSerialPrefix_ self)) as (Hq & _).
    rewrite Hid in Hq. cbn in Hq. rewrite Hq. reflexivity.
  - intros (identity & _ & Hinv & _). apply Honly. now rewrite Hinv.
Qed.

Lemma pair_holds_matches (dev : udev_device) (filter : string * string) :
  pair_holds dev filter <-> pair_matches dev filter.
Proof.
  unfold pair_holds, pair_matches, or_null.
  now destruct (dev_properties dev !! fst filter).
Qed.

Lemma Forall_pair_holds (dev : udev_device) (filters : list (string * string)) :
  Forall (pair_holds dev) filters <-> Forall (pair_matches dev) filters.
Proof.
  split; intros H; (eapply Forall_impl; [exact H|]);
    intros f; apply pair_holds_matches.
Qed.

(** X13: the loop of [invokeIfMatch] runs to completion exactly when every
    filter pair equals the record's property of that name, an absent property
    counting as "[null]".  A callback invocation implies that every pair
    holds; for a record that has a device node to pass, every pair holds
    exactly when the callback is invoked, once, with the device node and the
    identity [readId] returns.  At the first failing pair in declaration
    order the function returns: the properties read are those of the pairs
    before it and its own, and the callback is not invoked. *)
Theorem invokeIfMatch_iff
    (target : target_device) (self : DeviceObserver) (callback : nat)
    (dev : udev_device) :
  let filters := properties target in
  let m := invokeIfMatch target self callback dev in
  (result (invokeIfMatch_loop (subsystem target) dev filters) = Ret true
   <-> Forall (pair_holds dev) filters)
  /\ (invocations (trace m) <> [] -> Forall (pair_holds dev) filters)
  /\ (forall node,
        dev_devnode dev = Some node ->
        Forall (pair_holds dev) filters
        <-> exists identity,
              result (readId dev (noSerialPrefix_ self)) = Ret identity
              /\ invocations (trace m) = [(callback, node, identity)]
              /\ result m = Ret tt)
  /\ (forall before name expected after,
        filters = (before ++ (name, expected) :: after)%list ->
        Forall (pair_holds dev) before ->
        ~ pair_holds dev (name, expected) ->
        property_reads (trace m) = (map fst before ++ [name])%list
        /\ invocations (trace m) = []
        /\ result m = Ret tt).
Proof.
  intros filters m.
  destruct (invokeIfMatch_characterised target self callback dev)
    as (Hloop & Honly & Hnode & Hfail).
  fold filters m in Hloop, Honly, Hnode, Hfail.
  split; [now rewrite Forall_pair_holds|].
  split; [intros H; now apply Forall_pair_holds, Honly|].
  split.
  - intros node Hn. rewrite Forall_pair_holds. now apply Hnode.
  - intros before name expected after HF Hb Hne.
    apply (Hfail before name expected after HF).
    + now apply Forall_pair_holds.
    + intros H. now apply Hne, pair_holds_matches.
Qed.

Lemma invokeIfMatch_iff_witness :
  invocations
    (trace (invokeIfMatch untagged_target evil_observer 1 acme_usb_device))
  = [(1%nat, "/dev/ttyUSB0", "ABC123")]
  /\ property_reads
       (trace (invokeIfMatch acme_target evil_observer 1 otherco_device))
     = ["ID_BUS"; "ID_VENDOR"].
Proof.
  split.
  - destruct (invokeIfMatch_iff untagged_target evil_observer 1
                acme_usb_device) as (_ & _ & H & _).
    destruct (proj1 (H "/dev/ttyUSB0" eq_refl)) as (identity & Hid & Hinv & _).
    + repeat (constructor; [reflexivity|]). constructor.
    + injection Hid as <-. exact Hinv.
  - destruct (invokeIfMatch_iff acme_target evil_observer 1 otherco_device)
      as (_ & _ & _ & H).
    destruct (H [("ID_BUS", "usb")] "ID_VENDOR" "Acme" [] eq_refl)
      as (Hreads & _).
    + repeat (constructor; [reflexivity|]). constructor.
    + intros Hv. vm_compute in Hv. discriminate Hv.
    + exact Hreads.
Defined.

(** C2 (the code departs from the claim): a record whose every filter pair
    holds but that has no device node (nor serial number or path tag) passes
    the matcher, and the call at line 164 then converts the NULL device node
    to a [std::string] (in [readId], line 128): the callback is not
    invoked. *)
Theorem invokeIfMatch_matching_record_without_node :
  Forall (pair_holds nodeless_device) (properties acme_target)
  /\ result (invokeIfMatch_loop (subsystem acme_target) nodeless_device
               (properties acme_target)) = Ret true
  /\ result (invokeIfMatch acme_target evil_observer 1 nodeless_device)
     = Undefined
  /\ invocations
       (trace (invokeIfMatch acme_target evil_observer 1 nodeless_device))
     = [].
Proof.
  split; [repeat (constructor; [reflexivity|]); constructor|].
  repeat split; reflexivity.
Qed.


(** C7: when the matcher fails at the pair [(name, expected)], the function
    writes one diagnostic, naming the property, its actual value and the
    expected one, if [name] is neither ID_BUS nor ID_USB_INTERFACE_NUM, and
    writes nothing if it is one of the two. *)
Theorem mismatch_diagnostic
    (target : target_device) (self : DeviceObserver) (callback : nat)
    (dev : udev_device) (before after : list (string * string))
    (name expected : string) :
  properties target = (before ++ (name, expected) :: after)%list ->
  Forall (pair_matches dev) before ->
  ~ pair_matches dev (name, expected) ->
  let actual := or_null (dev_properties dev !! name) in
  let t := trace (invokeIfMatch target self callback dev) in
  (name <> "ID_BUS" /\ name <> "ID_USB_INTERFACE_NUM" ->
   logs t = ["Ignoring " +:+ subsystem target +:+ " device event as " +:+ name
               +:+ " is " +:+ actual +:+ ", but target device has "
               +:+ expected])
  /\ (name = "ID_BUS" \/ name = "ID_USB_INTERFACE_NUM" -> logs t = [])
  /\ (logs t <> [] <-> name <> "ID_BUS" /\ name <> "ID_USB_INTERFACE_NUM").
Proof.
  intros HF Hb Hn actual t. subst t.
  rewrite (invokeIfMatch_mismatch target self callback dev _ _ _ _ HF Hb Hn).
  cbn [trace fst].
  change (?l ++ ?x :: ?r)%list with (l ++ [x] ++ r)%list.
  rewrite !logs_app.
  destruct (reads_of_reads before) as (_ & -> & _).
  unfold mismatch_events. cbn [app logs].
  destruct (String.eqb_spec name "ID_BUS") as [Hbus | Hbus];
    destruct (String.eqb_spec name "ID_USB_INTERFACE_NUM") as [Hnum | Hnum];
    cbn [negb andb logs]; (split; [|split; [|split]]);
    try reflexivity; try tauto; easy.
Qed.

Lemma mismatch_diagnostic_witness :
  logs (trace (invokeIfMatch acme_target evil_observer 1 otherco_device))
  = ["Ignoring tty device event as ID_VENDOR is OtherCo, but target device has Acme"].
Proof.
  destruct (mismatch_diagnostic acme_target evil_observer 1 otherco_device
              [("ID_BUS", "usb")] [] "ID_VENDOR" "Acme" eq_refl)
    as (H & _).
  - repeat constructor.
  - discriminate.
  - apply H. split; discriminate.
Defined.

(** ** The read loop *)

Arguments handleDeviceEvent : simpl never.

Lemma wait_resolution_signals_closure : signals_closure wait_resolution.
Proof. intros ch Hc. unfold wait_resolution. now rewrite Hc. Qed.

Section ReadLoop.

Variable target : target_device.
Variable self : DeviceObserver.
Variable resolve : reactor.

(** An event that is neither an "add" nor a "remove" goes no further than
    [udev_device_get_action]. *)
Lemma handleDeviceEvent_unrecognised (dev : option udev_device) :
  dev ≫= dev_action <> Some "add" ->
  dev ≫= dev_action <> Some "remove" ->
  handleDeviceEvent target self dev = ([GetAction], Ret tt).
Proof.
  intros Hadd Hrem. unfold handleDeviceEvent, udev_device_get_action. cbn.
  destruct (dev ≫= dev_action) as [action|]; [|reflexivity]. cbn.
  destruct (String.eqb_spec action "add") as [-> | _]; [congruence|].
  destruct (String.eqb_spec action "remove") as [-> | _]; [congruence|].
  reflexivity.
Qed.

Hypothesis Hresolve : signals_closure resolve.

(** Once the channel is closed, nothing the reactor or the kernel does makes
    the observer act again. *)
Lemma run_closed (inputs : list input) : forall ch,
  closed ch = true ->
  exists ch',
    run target self resolve ch inputs = ([], Ret ch')
    /\ closed ch' = true
    /\ pending ch' = (pending ch ++ arrivals inputs)%list
    /\ (armed ch = false \/ In Poll inputs -> armed ch' = false).
Proof.
  induction inputs as [|i rest IH]; intros ch Hclosed.
  - exists ch. cbn. rewrite app_nil_r. repeat split; [exact Hclosed | tauto].
  - pose proof (Hresolve ch Hclosed) as Hr.
    destruct ch as [c a q]. cbn in Hclosed. subst c.
    destruct i as [|d|]; cbn [run step].
    + destruct (IH (stop (mk_channel true a q)) eq_refl)
        as (ch' & Hrun & Hc & Hq & Ha).
      exists ch'. cbn. cbn in Hrun. rewrite Hrun.
      repeat split; [exact Hc | exact Hq |].
      intros [H | [H | H]]; [auto | discriminate | auto].
    + destruct (IH (mk_channel true a (q ++ [d])) eq_refl)
        as (ch' & Hrun & Hc & Hq & Ha).
      exists ch'. cbn. cbn in Hrun. rewrite Hrun.
      repeat split; [exact Hc | |].
      * rewrite Hq. cbn. now rewrite <- app_assoc.
      * intros [H | [H | H]]; [auto | discriminate | auto].
    + destruct (IH (mk_channel true false q) eq_refl)
        as (ch' & Hrun & Hc & Hq & Ha).
      exists ch'. unfold poll. cbn [armed closed pending].
      destruct a; [rewrite Hr|]; cbn; cbn in Hrun; rewrite Hrun;
        (repeat split; [exact Hc | exact Hq | auto]).
Qed.

End ReadLoop.

(** C6: a dequeued event whose action tag is absent, or is neither "add" nor
    "remove", leads to no callback and no diagnostic: the completion handler
    receives the device, reads its action and issues the next wait. *)
Theorem unrecognised_event_dropped
    (target : target_device) (self : DeviceObserver) (resolve : reactor)
    (ch : channel) (ec : error_code)
    (dev : option udev_device) (rest : list (option udev_device)) :
  armed ch = true ->
  resolve ch = Some ec ->
  ec <> bad_file_descriptor ->
  pending ch = dev :: rest ->
  dev ≫= dev_action <> Some "add" ->
  dev ≫= dev_action <> Some "remove" ->
  let m := poll target self resolve ch in
  m = ([ReceiveDevice; GetAction; Arm],
       Ret (mk_channel (closed ch) true rest))
  /\ invocations (trace m) = []
  /\ logs (trace m) = []
  /\ In Arm (trace m).
Proof.
  intros Ha Hr Hec Hq Hadd Hrem m.
  assert (Hm : m = ([ReceiveDevice; GetAction; Arm],
                    Ret (mk_channel (closed ch) true rest))).
  { subst m. unfold poll, on_wait_resolved. rewrite Ha, Hr, Hq.
    destruct ec; [|congruence|]; cbn;
      rewrite (handleDeviceEvent_unrecognised target self dev Hadd Hrem);
      reflexivity. }
  rewrite Hm. cbn. repeat split; try reflexivity. auto.
Qed.

Lemma unrecognised_event_dropped_witness :
  poll acme_target evil_observer wait_resolution
    (mk_channel false true [Some change_event; None])
  = ([ReceiveDevice; GetAction; Arm], Ret (mk_channel false true [None])).
Proof.
  refine (proj1 (unrecognised_event_dropped acme_target evil_observer
                   wait_resolution
                   (mk_channel false true [Some change_event; None])
                   success (Some change_event) [None] _ _ _ _ _ _));
    [ reflexivity | reflexivity | discriminate | reflexivity
    | discriminate | discriminate ].
Defined.

(** C8: with a reactor that signals closure, once [stop()] has been called,
    whatever was queued or outstanding and whatever happens next, the
    observer performs no further effect (in particular no callback
    invocation and no new wait) and the queued events stay where they are;
    the completion handler of a wait that resolves after the call returns at
    once and leaves no wait outstanding. *)
Theorem no_callback_after_stop
    (target : target_device) (self : DeviceObserver) (resolve : reactor)
    (ch : channel) (inputs : list input) :
  signals_closure resolve ->
  let m := run target self resolve ch (CallStop :: inputs) in
  trace m = []
  /\ invocations (trace m) = []
  /\ ~ In Arm (trace m)
  /\ (exists ch',
        result m = Ret ch' /\ closed ch' = true
        /\ pending ch' = (pending ch ++ arrivals inputs)%list
        /\ (In Poll inputs -> armed ch' = false))
  /\ poll target self resolve (stop ch)
     = ([], Ret (mk_channel true false (pending ch))).
Proof.
  intros Hresolve m.
  destruct (run_closed target self resolve Hresolve inputs (stop ch) eq_refl)
    as (ch' & Hrun & Hc & Hq & Ha).
  assert (Hm : m = ([], Ret ch'))
    by (subst m; cbn; cbn in Hrun; now rewrite Hrun).
  rewrite Hm. cbn [trace result fst snd].
  repeat split; try reflexivity.
  - intros [].
  - exists ch'. repeat split; [exact Hc | exact Hq | auto].
  - unfold poll, stop. cbn [armed closed pending].
    rewrite (Hresolve (mk_channel true (armed ch) (pending ch)) eq_refl).
    destruct (armed ch); reflexivity.
Qed.

Lemma no_callback_after_stop_witness :
  trace (run acme_target evil_observer wait_resolution
           (mk_channel false true [Some acme_usb_device])
           [CallStop; Enqueue (Some acme_usb_device); Poll; Poll])
  = [].
Proof.
  refine (proj1 (no_callback_after_stop acme_target evil_observer
                   wait_resolution
                   (mk_channel false true [Some acme_usb_device])
                   [Enqueue (Some acme_usb_device); Poll; Poll] _)).
  exact wait_resolution_signals_closure.
Defined.

(** * Further properties *)

(** ** Sequencing *)

Lemma readId_returns_or_undefined (dev : udev_device) (noSerialPrefix : string) :
  (exists identity, result (readId dev noSerialPrefix) = Ret identity)
  \/ result (readId dev noSerialPrefix) = Undefined.
Proof.
  destruct (dev_properties dev !! "ID_SERIAL_SHORT") as [serial|] eqn:Hs.
  - rewrite (readId_serial dev noSerialPrefix serial Hs). eauto.
  - destruct (dev_properties dev !! "ID_PATH_TAG") as [p|] eqn:Hp.
    + rewrite (readId_path_tag dev noSerialPrefix p Hs Hp). eauto.
    + destruct (dev_devnode dev) as [n|] eqn:Hn.
      * rewrite (readId_devnode dev noSerialPrefix n Hs Hp Hn). eauto.
      * rewrite (readId_nothing dev noSerialPrefix Hs Hp Hn). now right.
Qed.

Lemma bind_returns {A B} (m : M A) (k : A -> M B) (a : A) :
  result m = Ret a ->
  trace (bind m k) = (trace m ++ trace (k a))%list
  /\ result (bind m k) = result (k a).
Proof.
  destruct m as [t r]. cbn. intros ->. cbn.
  destruct (k a) as [t' r']. easy.
Qed.

Lemma bind_stops {A B} (m : M A) (k : A -> M B) :
  (forall a, result m <> Ret a) ->
  trace (bind m k) = trace m.
Proof.
  destruct m as [t [a | e |]]; cbn; intros H; [|reflexivity..].
  now destruct (H a).
Qed.

(** ** The matcher, call by call *)

Lemma matches_Forall (dev : udev_device) (filters : list (string * string)) :
  matches dev filters = true <-> Forall (pair_matches dev) filters.
Proof.
  unfold matches, pair_matches.
  induction filters as [|f rest IH]; cbn.
  - split; [constructor | reflexivity].
  - rewrite andb_true_iff, IH, String.eqb_eq. split.
    + intros [Hf Hrest]. now constructor.
    + intros H. inversion H; subst. easy.
Qed.

Arguments invokeIfMatch : simpl never.

Section Calls.

Variable target : target_device.
Variable self : DeviceObserver.
Variable callback : nat.
Variable dev : udev_device.

(** Every pair holds but there is no device node: the call at line 164 is
    not reached. *)
Lemma invokeIfMatch_match_no_devnode :
  Forall (pair_matches dev) (properties target) ->
  dev_devnode dev = None ->
  invocations (trace (invokeIfMatch target self callback dev)) = []
  /\ logs (trace (invokeIfMatch target self callback dev)) = []
  /\ result (invokeIfMatch target self callback dev) = Undefined.
Proof.
  intros Hall Hnode. rewrite (invokeIfMatch_match _ _ _ _ Hall).
  unfold udev_device_get_devnode. cbn. rewrite Hnode.
  destruct (readId_quiet dev (noSerialPrefix_ self)) as [Hi Hl].
  destruct (readId_returns_or_undefined dev (noSerialPrefix_ self))
    as [(identity & Hr) | Hr];
    destruct (readId dev (noSerialPrefix_ self)) as [t r];
    cbn in Hi, Hl, Hr; subst r; cbn;
    rewrite ?invocations_app, ?logs_app;
    destruct (reads_of_reads (properties target)) as (_ & -> & ->);
    cbn; rewrite ?app_nil_r, ?Hi, ?Hl; easy.
Qed.

(** The invocations of a call are the delivery owed to the record. *)
Lemma invokeIfMatch_invocations :
  invocations (trace (invokeIfMatch target self callback dev))
  = delivery target self callback dev.
Proof.
  unfold delivery.
  destruct (matches dev (properties target)) eqn:Hm.
  - apply matches_Forall in Hm.
    destruct (dev_devnode dev) as [node|] eqn:Hnode.
    + destruct (readId_returns dev (noSerialPrefix_ self) node Hnode)
        as (t & identity & Hid).
      rewrite (invokeIfMatch_match_devnode _ _ _ _ _ _ _ Hm Hnode Hid), Hid.
      cbn [trace result fst snd].
      change (?l ++ ?x :: ?r)%list with (l ++ [x] ++ r)%list.
      rewrite !invocations_app.
      destruct (reads_of_reads (properties target)) as (_ & _ & ->).
      destruct (readId_quiet dev (noSerialPrefix_ self)) as (Hq & _).
      rewrite Hid in Hq. cbn in Hq. now rewrite Hq.
    + now destruct (invokeIfMatch_match_no_devnode Hm Hnode) as (-> & _).
  - destruct (first_mismatch dev (properties target))
      as [Hall | (before & n & e & after & HF & Hb & Hn)].
    + apply matches_Forall in Hall. congruence.
    + rewrite (invokeIfMatch_mismatch _ _ _ _ _ _ _ _ HF Hb Hn).
      cbn [trace fst].
      change (?l ++ ?x :: ?r)%list with (l ++ [x] ++ r)%list.
      rewrite !invocations_app.
      destruct (reads_of_reads before) as (_ & _ & ->).
      now destruct (mismatch_events_quiet (subsystem target) dev n e)
        as (_ & ->).
Qed.

Lemma invokeIfMatch_returns :
  deliverable target dev ->
  result (invokeIfMatch target self callback dev) = Ret tt.
Proof.
  intros Hd.
  destruct (first_mismatch dev (properties target))
    as [Hall | (before & n & e & after & HF & Hb & Hn)].
  - destruct (dev_devnode dev) as [node|] eqn:Hnode.
    + destruct (readId_returns dev (noSerialPrefix_ self) node Hnode)
        as (t & identity & Hid).
      now rewrite (invokeIfMatch_match_devnode _ _ _ _ _ _ _ Hall Hnode Hid).
    + apply matches_Forall in Hall. now destruct (Hd Hall).
  - now rewrite (invokeIfMatch_mismatch _ _ _ _ _ _ _ _ HF Hb Hn).
Qed.

End Calls.

(** X3: one call of [invokeIfMatch] writes at most one diagnostic or issues
    at most one callback invocation, never both; and for every record that,
    if it matches, has a device node, the observer's own code runs the call
    to its end (the callback is taken to return). *)
Theorem invokeIfMatch_one_outcome
    (target : target_device) (self : DeviceObserver) (callback : nat)
    (dev : udev_device) :
  let m := invokeIfMatch target self callback dev in
  (length (logs (trace m)) + length (invocations (trace m)) <= 1)%nat
  /\ (deliverable target dev -> result m = Ret tt).
Proof.
  intros m. subst m. split; [|apply invokeIfMatch_returns].
  destruct (first_mismatch dev (properties target))
    as [Hall | (before & n & e & after & HF & Hb & Hn)].
  - destruct (dev_devnode dev) as [node|] eqn:Hnode.
    + destruct (readId_returns dev (noSerialPrefix_ self) node Hnode)
        as (t & identity & Hid).
      rewrite (invokeIfMatch_match_devnode _ _ _ _ _ _ _ Hall Hnode Hid).
      cbn [trace fst].
      change (?l ++ ?x :: ?r)%list with (l ++ [x] ++ r)%list.
      rewrite !invocations_app, !logs_app.
      destruct (reads_of_reads (properties target)) as (_ & -> & ->).
      destruct (readId_quiet dev (noSerialPrefix_ self)) as (Hq & Hl).
      rewrite Hid in Hq, Hl. cbn in Hq, Hl. rewrite Hq, Hl. cbn. lia.
    + destruct (invokeIfMatch_match_no_devnode target self callback dev
                  Hall Hnode) as (-> & -> & _).
      cbn. lia.
  - rewrite (invokeIfMatch_mismatch _ _ _ _ _ _ _ _ HF Hb Hn).
    cbn [trace fst].
    change (?l ++ ?x :: ?r)%list with (l ++ [x] ++ r)%list.
    rewrite !invocations_app, !logs_app.
    destruct (reads_of_reads before) as (_ & -> & ->).
    destruct (mismatch_events_quiet (subsystem target) dev n e) as (_ & ->).
    unfold mismatch_events. destruct (_ && _); cbn; lia.
Qed.

(** X4: the matcher sees a record only through the properties its filter
    names, an absent one read as "[null]": two records that agree on them
    give the same reads, the same diagnostic and the same verdict.  In
    particular a record that lacks a property and one that carries the text
    "[null]" for it cannot be told apart. *)
Theorem matcher_reads_filter_names_only
    (sub : string) (dev dev' : udev_device)
    (filters : list (string * string)) :
  (forall name,
     In name (map fst filters) ->
     or_null (dev_properties dev !! name)
     = or_null (dev_properties dev' !! name)) ->
  invokeIfMatch_loop sub dev filters = invokeIfMatch_loop sub dev' filters
  /\ forall name,
       invokeIfMatch_loop sub (with_property name None dev) filters
       = invokeIfMatch_loop sub (with_property name (Some "[null]") dev)
           filters.
Proof.
  assert (Hext : forall d d' fs,
             (forall name, In name (map fst fs) ->
                or_null (dev_properties d !! name)
                = or_null (dev_properties d' !! name)) ->
             invokeIfMatch_loop sub d fs = invokeIfMatch_loop sub d' fs).
  { intros d d' fs. induction fs as [|[n e] rest IH]; intros H; [reflexivity|].
    cbn [invokeIfMatch_loop]. unfold udev_device_get_property_value.
    cbn [fst snd emit ret bind app].
    rewrite (H n) by (cbn; auto).
    rewrite IH by (intros name Hin; apply H; cbn; auto).
    reflexivity. }
  intros H. split; [now apply Hext|].
  intros name. apply Hext. intros name' _. cbn.
  destruct (decide (name = name')) as [-> | Hne].
  - now rewrite lookup_delete_eq, lookup_insert_eq.
  - now rewrite lookup_delete_ne, lookup_insert_ne.
Qed.

Lemma matcher_reads_filter_names_only_witness :
  invokeIfMatch_loop "tty" acme_usb_device (properties acme_target)
  = invokeIfMatch_loop "tty" change_event (properties acme_target).
Proof.
  refine (proj1 (matcher_reads_filter_names_only "tty" acme_usb_device
                   change_event (properties acme_target) _)).
  intros name [<- | [<- | []]]; reflexivity.
Defined.

(** ** The path-tag and device-node branches, in general *)

Lemma last_of_set_split (set p : string) :
  StdString.none_of set p = false ->
  exists head c tail,
    p = head +:+ String c tail
    /\ StdString.mem c set = true
    /\ StdString.none_of set tail = true.
Proof.
  induction p as [|x p IH]; [discriminate|].
  intros H. destruct (StdString.none_of set p) eqn:Hp.
  - exists "", x, p. cbn in H. rewrite Hp, andb_true_r in H.
    apply negb_false_iff in H. easy.
  - destruct (IH eq_refl) as (head & c & tail & -> & Hc & Htail).
    exists (String x head), c, tail. now rewrite append_cons.
Qed.

(** X5: what the path-tag branch computes for any tag: the suffix is the
    part of the tag after its last character out of 'u', 's', 'b', '-', so it
    holds none of these characters; the whole tag is used exactly when it
    holds none of them. *)
Theorem readId_path_tag_last_set_char
    (dev : udev_device) (noSerialPrefix p : string) :
  dev_properties dev !! "ID_SERIAL_SHORT" = None ->
  dev_properties dev !! "ID_PATH_TAG" = Some p ->
  (StdString.size p < StdString.size_max)%N ->
  exists suffix,
    result (readId dev noSerialPrefix)
    = Ret ("[" +:+ noSerialPrefix +:+ "/" +:+ suffix +:+ "]")
    /\ StdString.none_of "usb-" suffix = true
    /\ (StdString.none_of "usb-" p = true -> suffix = p)
    /\ (StdString.none_of "usb-" p = false ->
        exists head c,
          p = head +:+ String c suffix /\ StdString.mem c "usb-" = true).
Proof.
  intros Hs Hp Hsize. exists (path_tag_suffix p).
  rewrite (readId_path_tag dev noSerialPrefix p Hs Hp).
  split; [reflexivity|].
  destruct (StdString.none_of "usb-" p) eqn:Hnone.
  - rewrite (path_tag_suffix_whole p Hnone Hsize).
    repeat split; [exact Hnone | discriminate].
  - destruct (last_of_set_split "usb-" p Hnone)
      as (head & c & tail & -> & Hc & Htail).
    rewrite (path_tag_suffix_cut head tail c Hc Htail Hsize).
    repeat split; [exact Htail | discriminate | eauto].
Qed.

Lemma readId_path_tag_last_set_char_witness :
  exists suffix,
    result (readId platform_device "evil")
    = Ret ("[" +:+ "evil" +:+ "/" +:+ suffix +:+ "]")
    /\ StdString.none_of "usb-" suffix = true
    /\ (StdString.none_of "usb-" "platform-serial8250" = true ->
        suffix = "platform-serial8250")
    /\ (StdString.none_of "usb-" "platform-serial8250" = false ->
        exists head c,
          "platform-serial8250" = head +:+ String c suffix
          /\ StdString.mem c "usb-" = true).
Proof.
  apply (readId_path_tag_last_set_char platform_device "evil"
           "platform-serial8250"); reflexivity.
Defined.

Lemma skip_nonempty (n : nat) (s : string) :
  (n < String.length s)%nat -> StdString.skip n s <> "".
Proof.
  revert s. induction n as [|n IH]; intros [|x s]; cbn; intros H;
    [lia | discriminate | lia | apply IH; lia].
Qed.

(** X6: the device-node branch never yields an empty suffix for a non-empty
    node path: a path of five characters or fewer is kept whole, a longer
    one keeps what follows its fifth character. *)
Theorem readId_devnode_suffix_nonempty
    (dev : udev_device) (noSerialPrefix n : string) :
  dev_properties dev !! "ID_SERIAL_SHORT" = None ->
  dev_properties dev !! "ID_PATH_TAG" = None ->
  dev_devnode dev = Some n ->
  n <> "" ->
  exists suffix,
    result (readId dev noSerialPrefix)
    = Ret ("[" +:+ noSerialPrefix +:+ "/" +:+ suffix +:+ "]")
    /\ suffix <> ""
    /\ ((String.length n <= 5)%nat -> suffix = n).
Proof.
  intros Hs Hp Hn Hne. exists (devnode_suffix n).
  rewrite (readId_devnode dev noSerialPrefix n Hs Hp Hn).
  split; [reflexivity|]. unfold devnode_suffix, StdString.size.
  destruct (N.ltb_spec 5 (N.of_nat (String.length n))) as [Hlt | Hge].
  - split; [apply skip_nonempty|]; lia.
  - split; [exact Hne | reflexivity].
Qed.

Lemma readId_devnode_suffix_nonempty_witness :
  exists suffix,
    result (readId (bare_device (Some "/dev/")) "evil")
    = Ret ("[" +:+ "evil" +:+ "/" +:+ suffix +:+ "]")
    /\ suffix <> ""
    /\ ((String.length "/dev/" <= 5)%nat -> suffix = "/dev/").
Proof.
  apply (readId_devnode_suffix_nonempty (bare_device (Some "/dev/")) "evil"
           "/dev/"); [reflexivity | reflexivity | reflexivity | discriminate].
Defined.

(** ** Dispatch of live events *)

Section Dispatch.

Variable target : target_device.
Variable self : DeviceObserver.

Lemma handleDeviceEvent_dispatch (d : udev_device) :
  handleDeviceEvent target self (Some d)
  = (emit GetAction;;;
     match handler_of self (dev_action d) with
     | Some h => invokeIfMatch target self h d
     | None => ret tt
     end).
Proof.
  unfold handleDeviceEvent, udev_device_get_action, handler_of. cbn.
  destruct (dev_action d) as [action|]; [|reflexivity]. cbn.
  destruct (String.eqb action "add");
    [|destruct (String.eqb action "remove")];
    try destruct (addCallback_ self); try destruct (removeCallback_ self);
    reflexivity.
Qed.

Lemma handleDeviceEvent_null :
  handleDeviceEvent target self None = ([GetAction], Ret tt).
Proof. reflexivity. Qed.

(** The invocations of a dequeued event are its live delivery. *)
Lemma handleDeviceEvent_invocations (dev : option udev_device) :
  invocations (trace (handleDeviceEvent target self dev))
  = live_delivery target self dev.
Proof.
  destruct dev as [d|]; [|reflexivity].
  rewrite handleDeviceEvent_dispatch. unfold live_delivery.
  destruct (handler_of self (dev_action d)) as [h|]; [|reflexivity].
  rewrite <- (invokeIfMatch_invocations target self h d).
  now destruct (invokeIfMatch target self h d) as [t [[]|e|]].
Qed.

Lemma handleDeviceEvent_returns (dev : option udev_device) :
  live_deliverable target dev ->
  result (handleDeviceEvent target self dev) = Ret tt.
Proof.
  intros Hd. destruct dev as [d|]; [|reflexivity].
  rewrite handleDeviceEvent_dispatch.
  destruct (handler_of self (dev_action d)) as [h|]; [|reflexivity].
  pose proof (invokeIfMatch_returns target self h d (Hd d eq_refl)) as Hr.
  destruct (invokeIfMatch target self h d) as [t r]. cbn in Hr. now subst r.
Qed.

End Dispatch.

(** X7: a callback invocation made while a dequeued event is handled is
    always for a device whose every filter pair holds, carries that device's
    own node and identity, and goes through the callback of the event's
    action: the add callback for "add", the remove callback for "remove". *)
Theorem callback_only_for_matching_event
    (target : target_device) (self : DeviceObserver)
    (dev : option udev_device) (cb : nat) (path identity : string) :
  In (cb, path, identity)
     (invocations (trace (handleDeviceEvent target self dev))) ->
  exists d,
    dev = Some d
    /\ Forall (pair_matches d) (properties target)
    /\ dev_devnode d = Some path
    /\ result (readId d (noSerialPrefix_ self)) = Ret identity
    /\ ((dev_action d = Some "add" /\ addCallback_ self = Some cb)
        \/ (dev_action d = Some "remove" /\ removeCallback_ self = Some cb)).
Proof.
  rewrite handleDeviceEvent_invocations. unfold live_delivery.
  destruct dev as [d|]; [|intros []].
  destruct (handler_of self (dev_action d)) as [h|] eqn:Hh; [|intros []].
  unfold delivery.
  destruct (matches d (properties target)) eqn:Hm; [|intros []].
  destruct (dev_devnode d) as [node|] eqn:Hnode; [|intros []].
  destruct (result (readId d (noSerialPrefix_ self))) as [id|e|] eqn:Hid;
    [|intros []..].
  intros [Heq | []]. injection Heq as -> -> ->.
  exists d.
  split; [reflexivity|]. split; [now apply matches_Forall|].
  split; [exact Hnode|]. split; [exact Hid|].
  unfold handler_of in Hh.
  destruct (dev_action d) as [action|]; [|discriminate].
  destruct (String.eqb action "add") eqn:Eadd.
  - apply String.eqb_eq in Eadd. subst action. now left.
  - destruct (String.eqb action "remove") eqn:Erem; [|discriminate].
    apply String.eqb_eq in Erem. subst action. now right.
Qed.

Lemma callback_only_for_matching_event_witness :
  exists d,
    Some acme_usb_device = Some d
    /\ Forall (pair_matches d) (properties acme_target)
    /\ dev_devnode d = Some "/dev/ttyUSB0"
    /\ result (readId d (noSerialPrefix_ evil_observer)) = Ret "ABC123"
    /\ ((dev_action d = Some "add" /\ addCallback_ evil_observer = Some 1%nat)
        \/ (dev_action d = Some "remove"
            /\ removeCallback_ evil_observer = Some 1%nat)).
Proof.
  apply (callback_only_for_matching_event acme_target evil_observer
           (Some acme_usb_device) 1 "/dev/ttyUSB0" "ABC123").
  vm_compute. left. reflexivity.
Defined.

(** X8: a live "add" (resp. "remove") event for a device whose every filter
    pair holds and that has a device node makes the add (resp. remove)
    callback, when one is installed, run exactly once, with the device node
    and the identity [readId] returns, and writes no diagnostic. *)
Theorem live_event_delivered
    (target : target_device) (self : DeviceObserver) (d : udev_device)
    (action node : string) (h : nat) :
  dev_action d = Some action ->
  (action = "add" /\ addCallback_ self = Some h)
  \/ (action = "remove" /\ removeCallback_ self = Some h) ->
  Forall (pair_matches d) (properties target) ->
  dev_devnode d = Some node ->
  let m := handleDeviceEvent target self (Some d) in
  exists identity,
    result (readId d (noSerialPrefix_ self)) = Ret identity
    /\ invocations (trace m) = [(h, node, identity)]
    /\ logs (trace m) = []
    /\ result m = Ret tt.
Proof.
  intros Ha Hcb Hall Hnode m. subst m.
  destruct (readId_returns d (noSerialPrefix_ self) node Hnode)
    as (t & identity & Hid).
  exists identity. rewrite Hid. split; [reflexivity|].
  rewrite handleDeviceEvent_dispatch.
  assert (Hh : handler_of self (dev_action d) = Some h).
  { rewrite Ha. unfold handler_of.
    destruct Hcb as [[-> Hcb] | [-> Hcb]]; exact Hcb. }
  rewrite Hh.
  rewrite (invokeIfMatch_match_devnode _ _ _ _ _ _ _ Hall Hnode Hid).
  cbn [emit bind trace result fst snd app].
  change (?l ++ ?x :: ?r)%list with (l ++ [x] ++ r)%list.
  cbn [invocations logs]. rewrite !invocations_app, !logs_app.
  destruct (reads_of_reads (properties target)) as (_ & -> & ->).
  destruct (readId_quiet d (noSerialPrefix_ self)) as (Hq & Hl).
  rewrite Hid in Hq, Hl. cbn in Hq, Hl. rewrite Hq, Hl. easy.
Qed.

Lemma live_event_delivered_witness :
  exists identity,
    result (readId removed_device (noSerialPrefix_ evil_observer))
    = Ret identity
    /\ invocations
         (trace (handleDeviceEvent acme_target evil_observer
                   (Some removed_device)))
       = [(2%nat, "/dev/ttyUSB0", identity)]
    /\ logs (trace (handleDeviceEvent acme_target evil_observer
                      (Some removed_device))) = []
    /\ result (handleDeviceEvent acme_target evil_observer
                 (Some removed_device)) = Ret tt.
Proof.
  apply (live_event_delivered acme_target evil_observer removed_device
           "remove" "/dev/ttyUSB0" 2);
    [reflexivity | right; split; reflexivity | repeat constructor
    | reflexivity].
Defined.

(** ** Enumeration and the live loop *)

Arguments start_loop : simpl nomatch.

Section Lifecycle.

Variable target : target_device.
Variable self : DeviceObserver.

Lemma start_loop_deliveries (h : nat) (scan : list (option udev_device)) :
  Forall (fun d => deliverable target (deref d)) scan ->
  result (start_loop target self h scan) = Ret tt
  /\ invocations (trace (start_loop target self h scan))
     = flat_map (fun d => delivery target self h (deref d)) scan.
Proof.
  induction 1 as [|d rest Hd _ [IHr IHi]]; [easy|].
  cbn [start_loop flat_map].
  destruct (bind_returns (invokeIfMatch target self h (deref d))
              (fun _ => start_loop target self h rest) tt
              (invokeIfMatch_returns target self h (deref d) Hd))
    as [-> ->].
  rewrite invocations_app, invokeIfMatch_invocations, IHi. easy.
Qed.

Variable resolve : reactor.

Lemma arrivals_enqueue (d : option udev_device) (inputs : list input) :
  arrivals (Enqueue d :: inputs) = d :: arrivals inputs.
Proof. reflexivity. Qed.

Lemma arrivals_poll (inputs : list input) :
  arrivals (Poll :: inputs) = arrivals inputs.
Proof. reflexivity. Qed.

Hypothesis Hwakes : wakes_on_event resolve.

(** A reactor turn on an open, armed channel with a queued event handles
    that event and issues the next wait. *)
Lemma poll_event (d : option udev_device) (q : list (option udev_device)) :
  live_deliverable target d ->
  result (poll target self resolve (mk_channel false true (d :: q)))
  = Ret (mk_channel false true q)
  /\ invocations
       (trace (poll target self resolve (mk_channel false true (d :: q))))
     = live_delivery target self d.
Proof.
  intros Hd. unfold poll. cbn [armed closed pending].
  destruct (Hwakes (mk_channel false true (d :: q)) eq_refl)
    as (ec & -> & Hec).
  pose proof (handleDeviceEvent_returns target self d Hd) as Hr.
  pose proof (handleDeviceEvent_invocations target self d) as Hi.
  unfold on_wait_resolved, udev_monitor_receive_device, receiveEvent.
  destruct ec; [|congruence|]; cbn;
    destruct (handleDeviceEvent target self d) as [t r];
    cbn in Hr, Hi; subst r; cbn;
    rewrite invocations_app; cbn; now rewrite app_nil_r.
Qed.

(** Without a queued event the turn does nothing. *)
Lemma poll_idle :
  poll target self resolve (mk_channel false true [])
  = ret (mk_channel false true []).
Proof.
  unfold poll. cbn [armed closed pending].
  now rewrite (Hwakes (mk_channel false true []) eq_refl).
Qed.

Lemma run_open (inputs : list input) : forall q,
  ~ In CallStop inputs ->
  Forall (live_deliverable target) (q ++ arrivals inputs) ->
  result (run target self resolve (mk_channel false true q) inputs)
  = Ret (mk_channel false true
           (drop (dequeued (length q) inputs) (q ++ arrivals inputs)))
  /\ invocations
       (trace (run target self resolve (mk_channel false true q) inputs))
     = flat_map (live_delivery target self)
         (take (dequeued (length q) inputs) (q ++ arrivals inputs)).
Proof.
  induction inputs as [|i rest IH]; intros q Hstop Hq.
  - cbn. now rewrite app_nil_r.
  - assert (Hrest : ~ In CallStop rest) by (intros H; apply Hstop; now right).
    destruct i as [|d|].
    + destruct Hstop. now left.
    + rewrite arrivals_enqueue in *. cbn [run step dequeued].
      cbn [closed armed pending].
      destruct (bind_returns (ret (mk_channel false true (q ++ [d])))
                  (fun ch' => run target self resolve ch' rest)
                  (mk_channel false true (q ++ [d])) eq_refl) as [-> ->].
      cbn [trace ret fst app].
      replace (q ++ d :: arrivals rest)%list
        with ((q ++ [d]) ++ arrivals rest)%list in *
        by now rewrite <- app_assoc.
      replace (S (length q)) with (length (q ++ [d]))
        by (rewrite length_app; cbn; lia).
      now apply IH.
    + rewrite arrivals_poll in *. cbn [run step].
      destruct q as [|d q].
      * rewrite poll_idle.
        destruct (bind_returns (ret (mk_channel false true []))
                    (fun ch' => run target self resolve ch' rest)
                    (mk_channel false true []) eq_refl) as [-> ->].
        cbn [trace ret fst app length dequeued]. now apply IH.
      * inversion Hq as [|? ? Hd Hq']; subst.
        destruct (poll_event d q Hd) as [Hr Hi].
        destruct (bind_returns _
                    (fun ch' => run target self resolve ch' rest)
                    _ Hr) as [-> ->].
        destruct (IH q Hrest Hq') as [IHr IHi].
        rewrite invocations_app, Hi, IHr, IHi.
        cbn [length dequeued]. easy.
Qed.

End Lifecycle.

Ltac solve_deliverable :=
  let H := fresh in
  intros H; cbn;
  first [ discriminate | vm_compute in H; discriminate H ].

Ltac solve_live_deliverable :=
  let d := fresh in
  let E := fresh in
  intros d E; first [ discriminate E | injection E as <-; solve_deliverable ].

Lemma start_deliveries
    (target : target_device) (self : DeviceObserver)
    (scan : list (option udev_device)) (ch : channel) :
  Forall (fun d => deliverable target (deref d)) scan ->
  invocations (trace (start target self scan ch))
  = match addCallback_ self with
    | Some h => flat_map (fun d => delivery target self h (deref d)) scan
    | None => []
    end
  /\ result (start target self scan ch)
     = Ret (mk_channel (closed ch) true (pending ch))
  /\ (exists t, trace (start target self scan ch) = (t ++ [Arm])%list)
  /\ (addCallback_ self = None -> trace (start target self scan ch) = [Arm]).
Proof.
  intros Hscan. unfold start, receiveEvent.
  destruct (addCallback_ self) as [h|].
  - destruct (start_loop_deliveries target self h scan Hscan) as [Hr Hi].
    destruct (bind_returns (start_loop target self h scan)
                (fun _ => emit Arm;;;
                          ret (mk_channel (closed ch) true (pending ch)))
                tt Hr) as [-> ->].
    cbn [emit ret bind trace result fst snd app].
    rewrite invocations_app, Hi. cbn. rewrite app_nil_r.
    repeat split; [eauto | discriminate].
  - cbn. repeat split. now exists [].
Qed.

(** X9: [start()] hands every enumerated device to the matcher with the add
    callback, in enumeration order, and then issues the first wait: when each
    matching device has a device node, the invocations are the deliveries of
    the scanned devices in order, all through the add callback, and the
    channel is left armed.  Without add callback nothing is enumerated. *)
Theorem start_delivers_scan
    (target : target_device) (self : DeviceObserver)
    (scan : list (option udev_device)) (ch : channel) :
  Forall (fun d => deliverable target (deref d)) scan ->
  let m := start target self scan ch in
  invocations (trace m)
  = match addCallback_ self with
    | Some h => flat_map (fun d => delivery target self h (deref d)) scan
    | None => []
    end
  /\ result m = Ret (mk_channel (closed ch) true (pending ch))
  /\ (exists t, trace m = (t ++ [Arm])%list)
  /\ (addCallback_ self = None -> trace m = [Arm]).
Proof. intros Hscan. now apply start_deliveries. Qed.

Lemma start_delivers_scan_witness :
  invocations
    (trace (start acme_target evil_observer
              [Some acme_usb_device; Some otherco_device; None]
              (mk_channel false false [])))
  = [(1%nat, "/dev/ttyUSB0", "ABC123")].
Proof.
  refine (eq_trans
            (proj1 (start_delivers_scan acme_target evil_observer
                      [Some acme_usb_device; Some otherco_device; None]
                      (mk_channel false false []) _)) _);
    [repeat (constructor; [solve_deliverable|]); constructor | reflexivity].
Defined.

(** X10: while the channel is open the read loop handles the queued events
    strictly in arrival order, one per reactor turn that finds an event, and
    is armed again after each: the invocations are the live deliveries of
    the events dequeued so far, and the others are still queued. *)
Theorem events_handled_in_order
    (target : target_device) (self : DeviceObserver) (resolve : reactor)
    (ch : channel) (inputs : list input) :
  wakes_on_event resolve ->
  closed ch = false ->
  armed ch = true ->
  ~ In CallStop inputs ->
  Forall (live_deliverable target) (pending ch ++ arrivals inputs) ->
  let queue := (pending ch ++ arrivals inputs)%list in
  let k := dequeued (length (pending ch)) inputs in
  let m := run target self resolve ch inputs in
  invocations (trace m) = flat_map (live_delivery target self) (take k queue)
  /\ result m = Ret (mk_channel false true (drop k queue)).
Proof.
  intros Hwakes Hc Ha Hstop Hq queue k m. subst queue k m.
  destruct ch as [c a q]. cbn in Hc, Ha. subst c a. cbn [pending] in *.
  destruct (run_open target self resolve Hwakes inputs q Hstop Hq)
    as [Hr Hi].
  now rewrite Hr, Hi.
Qed.

Lemma events_handled_in_order_witness :
  invocations
    (trace (run acme_target evil_observer wait_resolution
              (mk_channel false true [Some otherco_device])
              [Enqueue (Some removed_device); Poll;
               Enqueue (Some acme_usb_device); Poll; Poll; Poll]))
  = [(2%nat, "/dev/ttyUSB0", "ABC123"); (1%nat, "/dev/ttyUSB0", "ABC123")].
Proof.
  refine (eq_trans
            (proj1 (events_handled_in_order acme_target evil_observer
                      wait_resolution
                      (mk_channel false true [Some otherco_device])
                      [Enqueue (Some removed_device); Poll;
                       Enqueue (Some acme_usb_device); Poll; Poll; Poll]
                      _ _ _ _ _)) _).
  - intros [c a [|d q]] Hc; cbn in Hc; subst c; cbn; [reflexivity|].
    exists success. split; [reflexivity | discriminate].
  - reflexivity.
  - reflexivity.
  - cbn. intuition discriminate.
  - repeat (constructor; [solve_live_deliverable|]); constructor.
  - reflexivity.
Defined.

(** X11: enumeration and live events are not cross-checked: what the
    observer invokes from [start()] on is the deliveries of the scanned
    devices followed by the live deliveries of the events dequeued, so a
    device that is present at start-up and then announced by a live "add"
    event is reported twice. *)
Theorem enumeration_then_live
    (target : target_device) (self : DeviceObserver) (resolve : reactor)
    (scan : list (option udev_device)) (ch : channel)
    (inputs : list input) :
  wakes_on_event resolve ->
  closed ch = false ->
  ~ In CallStop inputs ->
  Forall (fun d => deliverable target (deref d)) scan ->
  Forall (live_deliverable target) (pending ch ++ arrivals inputs) ->
  let queue := (pending ch ++ arrivals inputs)%list in
  let k := dequeued (length (pending ch)) inputs in
  let m := (ch' <- start target self scan ch;;
            run target self resolve ch' inputs) in
  invocations (trace m)
  = (match addCallback_ self with
     | Some h => flat_map (fun d => delivery target self h (deref d)) scan
     | None => []
     end
     ++ flat_map (live_delivery target self) (take k queue))%list
  /\ result m = Ret (mk_channel false true (drop k queue)).
Proof.
  intros Hwakes Hc Hstop Hscan Hq queue k m. subst queue k m.
  destruct (start_deliveries target self scan ch Hscan)
    as (Hi & Hr & _).
  destruct (bind_returns (start target self scan ch)
              (fun ch' => run target self resolve ch' inputs) _ Hr)
    as [-> ->].
  rewrite Hc.
  destruct (run_open target self resolve Hwakes inputs (pending ch) Hstop Hq)
    as [Hr' Hi'].
  now rewrite invocations_app, Hi, Hi', Hr'.
Qed.

Lemma enumeration_then_live_witness :
  invocations
    (trace (ch' <- start acme_target evil_observer [Some acme_usb_device]
                     (mk_channel false false []);;
            run acme_target evil_observer wait_resolution ch'
              [Enqueue (Some acme_usb_device); Poll]))
  = [(1%nat, "/dev/ttyUSB0", "ABC123"); (1%nat, "/dev/ttyUSB0", "ABC123")].
Proof.
  refine (eq_trans
            (proj1 (enumeration_then_live acme_target evil_observer
                      wait_resolution [Some acme_usb_device]
                      (mk_channel false false [])
                      [Enqueue (Some acme_usb_device); Poll] _ _ _ _ _)) _).
  - intros [c a [|d q]] Hc; cbn in Hc; subst c; cbn; [reflexivity|].
    exists success. split; [reflexivity | discriminate].
  - reflexivity.
  - cbn. intuition discriminate.
  - repeat (constructor; [solve_deliverable|]); constructor.
  - repeat (constructor; [solve_live_deliverable|]); constructor.
  - reflexivity.
Defined.

(** X12: a call of [stop()] after [start()] leaves the enumeration as the
    only thing the observer ever does: with a reactor that signals closure,
    whatever arrives or resolves afterwards adds no effect to those of
    [start()]. *)
Theorem start_then_stop
    (target : target_device) (self : DeviceObserver) (resolve : reactor)
    (scan : list (option udev_device)) (ch : channel)
    (inputs : list input) :
  signals_closure resolve ->
  trace (ch' <- start target self scan ch;;
         run target self resolve ch' (CallStop :: inputs))
  = trace (start target self scan ch).
Proof.
  intros Hresolve.
  destruct (result (start target self scan ch)) as [ch'|e|] eqn:Hr.
  - destruct (bind_returns (start target self scan ch)
                (fun ch' => run target self resolve ch' (CallStop :: inputs))
                ch' Hr) as [-> _].
    destruct (run_closed target self resolve Hresolve inputs (stop ch')
                eq_refl) as (ch'' & Hrun & _).
    cbn [run step].
    destruct (bind_returns (ret (stop ch'))
                (fun c => run target self resolve c inputs) (stop ch')
                eq_refl) as [-> _].
    rewrite Hrun. cbn. now rewrite app_nil_r.
  - apply bind_stops. intros a. rewrite Hr. discriminate.
  - apply bind_stops. intros a. rewrite Hr. discriminate.
Qed.

Lemma start_then_stop_witness :
  trace (ch' <- start acme_target evil_observer [Some acme_usb_device]
                  (mk_channel false false []);;
         run acme_target evil_observer wait_resolution ch'
           [CallStop; Enqueue (Some acme_usb_device); Poll])
  = trace (start acme_target evil_observer [Some acme_usb_device]
             (mk_channel false false [])).
Proof.
  apply (start_then_stop acme_target evil_observer wait_resolution
           [Some acme_usb_device] (mk_channel false false [])
           [Enqueue (Some acme_usb_device); Poll]).
  exact wait_resolution_signals_closure.
Defined.
